(** * antichonk: the interactive review loop of [antichonk.py]

    A shallow embedding of [src/antichonk.py]: the class [File] with its
    class-level list [File.files], the class [StateMachine] with its
    class-level list [directories_to_ignore], and [main].

    The Python process is an explicit state ([process]) threaded through a
    state-and-exception monad [M].  The operating system is a small tree
    model of the disk; the calls the script makes into [os], [shutil] and
    [glob] are functions on that tree. *)

From Stdlib Require Import List String Ascii ZArith Arith Bool Lia.
From Stdlib Require Import Permutation Sorted FinFun.
Import ListNotations.

#[local] Set Warnings "-register-all".
#[local] Open Scope Z_scope.

(* ================================================================= *)
(** ** Python exceptions *)

(** The built-in exceptions the script can end with.  The last three are the
    names of the specification's error taxonomy: the source defines no
    exception class of its own and raises none of them. *)
Inductive exn : Type :=
| IndexError | ValueError | UnboundLocalError | EOFError | RecursionError
| FileNotFoundError | NotADirectoryError | IsADirectoryError
| PermissionError | OSError
| ScanError | EmptyCatalogError | DeletionError.

(* ================================================================= *)
(** ** The disk *)

(** An absolute path, as the list of its components below [/].  Every path
    the script handles went through [os.path.abspath], so equality of the
    Python strings is equality of these lists. *)
Definition Path : Type := list string.

(** What [os.stat] tells about an entry that is not a directory.
    [st_regular] is false for a fifo, socket or device node; [st_ctime] is
    in microseconds; [st_immutable] makes [unlink] fail with [EPERM], also
    for root. *)
Record inode : Type := mkInode {
  st_regular : bool;
  st_size : Z;
  st_ctime : Z;
  st_immutable : bool
}.

(** A directory lists its entries in [os.scandir] order. *)
Inductive node : Type :=
| Leaf (i : inode)
| Dir (entries : list (string * node)).

Definition entries : Type := list (string * node).

Fixpoint assoc (x : string) (es : entries) : option node :=
  match es with
  | [] => None
  | (y, n) :: es' => if String.eqb y x then Some n else assoc x es'
  end.

(** What lies at path [p] below the directory with entries [es]. *)
Fixpoint lookup (es : entries) (p : Path) {struct p} : option node :=
  match p with
  | [] => Some (Dir es)
  | x :: p' =>
      match assoc x es with
      | Some (Dir sub) => lookup sub p'
      | Some (Leaf i) => match p' with [] => Some (Leaf i) | _ :: _ => None end
      | None => None
      end
  end.

(** Replace the entry named [x] by what [f] makes of it, [None] removing it. *)
Definition alter (x : string) (f : node -> option node) (es : entries) : entries :=
  flat_map (fun yc : string * node =>
              if String.eqb (fst yc) x
              then match f (snd yc) with Some c => [(fst yc, c)] | None => [] end
              else [yc]) es.

Fixpoint update (p : Path) (f : node -> option node) (es : entries) {struct p}
  : entries :=
  match p with
  | [] => es
  | x :: p' =>
      match p' with
      | [] => alter x f es
      | _ :: _ =>
          alter x (fun c => match c with
                            | Dir sub => Some (Dir (update p' f sub))
                            | Leaf _ => Some c
                            end) es
      end
  end.

(** [shutil.rmtree] below one node: entries are unlinked in listing order,
    directories recursively and then removed; the first [unlink] that fails
    stops the walk.  [None] when the node is gone, [Some n'] with what is
    left of it when an [unlink] failed. *)
Fixpoint rmtree_node (n : node) : option node :=
  match n with
  | Leaf i => if st_immutable i then Some n else None
  | Dir es =>
      match (fix walk (es : entries) : entries :=
               match es with
               | [] => []
               | (x, c) :: es' =>
                   match rmtree_node c with
                   | None => walk es'
                   | Some c' => (x, c') :: es'
                   end
               end) es with
      | [] => None
      | remaining => Some (Dir remaining)
      end
  end.

(** [glob._ishidden]: [name[0] == '.']. *)
Definition ishidden (name : string) : bool :=
  match name with
  | String c _ => Ascii.eqb c "."%char
  | EmptyString => false
  end.

(** The paths, relative to a node, that the pattern [**/*] matches below it
    with [recursive=True]: in every directory reached through names that are
    not hidden, every entry whose name is not hidden.  The order is glob's:
    the entries of the directory itself, then those of its subdirectories in
    pre-order. *)
Fixpoint glob_below (n : node) : list Path :=
  match n with
  | Leaf _ => []
  | Dir es =>
      map (fun x => [x]) (filter (fun x => negb (ishidden x)) (map fst es))
      ++ flat_map (fun xc : string * node =>
                     if ishidden (fst xc) then []
                     else map (cons (fst xc)) (glob_below (snd xc))) es
  end.

(* ================================================================= *)
(** ** Objects *)

(** An instance of class [File].  [oid] is the identity of the Python
    object: the class defines no [__eq__], so [==] between two instances, and
    with it [list.index], compares identities.  The two display strings
    [size_human_readable] and [age_human_readable] are not kept. *)
Record File : Type := mkFile {
  oid : nat;
  size_in_bytes : Z;
  path : Path;
  directory : Path;
  age_in_days : Z
}.

(** An instance of class [StateMachine].  The [actions] dictionary is the
    same for every instance and is the function [actions] below. *)
Record StateMachine : Type := mkStateMachine {
  files : list File;
  current_file : File
}.

(** What the script writes to standard output, one item per group of
    [print] calls.  The lines of the rendered tree are not spelled out. *)
Inductive output : Type :=
| Out_absolute_path (p : Path)        (* "Absolute path: {}" *)
| Out_tree_root (d : Path)            (* the root line of the tree *)
| Out_tree_children (d hl : Path)     (* the lines below the root *)
| Out_blank                           (* print() *)
| Out_choose_option                   (* "Please choose an option: d,D,s,S,? " *)
| Out_help_menu.                      (* the eight lines of print_help *)

(** The state of the process: the disk and the clock of the machine, the two
    class attributes, the next free object identity, standard input and
    standard output.  Standard error, where the interpreter writes the
    traceback of an exception nothing caught, is not part of it. *)
Record process : Type := mkProcess {
  disk : entries;
  clock : Z;
  File_files : list File;
  directories_to_ignore : list Path;
  next_oid : nat;
  stdin : list string;
  stdout : list output
}.

(* ================================================================= *)
(** ** The monad of Python statements *)

Inductive result (A : Type) : Type :=
| Ok (a : A) (p : process)
| Raise (e : exn) (p : process).
Arguments Ok {A} a p.
Arguments Raise {A} e p.

Definition M (A : Type) : Type := process -> result A.

Definition ret {A} (a : A) : M A := fun p => Ok a p.

Definition bind {A B} (m : M A) (k : A -> M B) : M B :=
  fun p => match m p with
           | Ok a p' => k a p'
           | Raise e p' => Raise e p'
           end.

Definition raise {A} (e : exn) : M A := fun p => Raise e p.

Definition gets {A} (f : process -> A) : M A := fun p => Ok (f p) p.

Definition modify (f : process -> process) : M unit := fun p => Ok tt (f p).

Declare Scope py_scope.
Delimit Scope py_scope with py.
Notation "x <- m ;; k" := (bind m (fun x => k))
  (at level 61, m at next level, right associativity) : py_scope.
Notation "m ;; k" := (bind m (fun _ => k))
  (at level 61, right associativity) : py_scope.
#[local] Open Scope py_scope.

Definition with_disk (d : entries) (p : process) : process :=
  mkProcess d (clock p) (File_files p) (directories_to_ignore p)
            (next_oid p) (stdin p) (stdout p).

Definition with_File_files (l : list File) (p : process) : process :=
  mkProcess (disk p) (clock p) l (directories_to_ignore p)
            (next_oid p) (stdin p) (stdout p).

Definition with_directories_to_ignore (l : list Path) (p : process) : process :=
  mkProcess (disk p) (clock p) (File_files p) l
            (next_oid p) (stdin p) (stdout p).

Definition with_next_oid (n : nat) (p : process) : process :=
  mkProcess (disk p) (clock p) (File_files p) (directories_to_ignore p)
            n (stdin p) (stdout p).

Definition with_stdin (l : list string) (p : process) : process :=
  mkProcess (disk p) (clock p) (File_files p) (directories_to_ignore p)
            (next_oid p) l (stdout p).

Definition with_stdout (l : list output) (p : process) : process :=
  mkProcess (disk p) (clock p) (File_files p) (directories_to_ignore p)
            (next_oid p) (stdin p) l.

(** [print] to a standard output that takes every string: the
    [UnicodeEncodeError] of a stream that cannot encode a name is left
    out. *)
Definition print (o : output) : M unit :=
  modify (fun p => with_stdout (stdout p ++ [o]) p).

(** [input()]: the next line of standard input, [EOFError] at its end.
    Standard input is a list of decoded lines: [UnicodeDecodeError] and
    [KeyboardInterrupt] are left out. *)
Definition input : M string :=
  fun p => match stdin p with
           | [] => Raise EOFError p
           | tok :: rest => Ok tok (with_stdin rest p)
           end.

(* ================================================================= *)
(** ** The calls into [os], [shutil] and [glob] *)

Module os.

Definition dirname (p : Path) : Path := removelast p.

(** What the kernel answers for a path that does not resolve: [ENOTDIR]
    when the path runs through an entry that is no directory, [ENOENT]
    otherwise. *)
Fixpoint unresolved (es : entries) (p : Path) {struct p} : exn :=
  match p with
  | [] => FileNotFoundError
  | x :: p' =>
      match assoc x es with
      | Some (Dir sub) => unresolved sub p'
      | Some (Leaf _) => NotADirectoryError
      | None => FileNotFoundError
      end
  end.

Definition exists_ (p : Path) : M bool :=
  d <- gets disk ;;
  ret (match lookup d p with Some _ => true | None => false end).

Definition isdir (p : Path) : M bool :=
  d <- gets disk ;;
  ret (match lookup d p with Some (Dir _) => true | _ => false end).

(** [os.stat], for what the script reads from it: [st_size] and [st_ctime]
    of a leaf.  The size and change time of a directory are never read. *)
Definition stat (p : Path) : M inode :=
  d <- gets disk ;;
  match lookup d p with
  | Some (Leaf i) => ret i
  | Some (Dir _) => ret (mkInode false 0 0 false)
  | None => raise (unresolved d p)
  end.

Definition getsize (p : Path) : M Z :=
  i <- stat p ;; ret (st_size i).

(** [os.remove]. *)
Definition remove (p : Path) : M unit :=
  d <- gets disk ;;
  match lookup d p with
  | None => raise (unresolved d p)
  | Some (Dir _) => raise IsADirectoryError
  | Some (Leaf i) =>
      if st_immutable i then raise PermissionError
      else modify (with_disk (update p (fun _ => None) d))
  end.

End os.

Module shutil.

(** [shutil.rmtree(d)] with the default [onerror]: what could be unlinked
    before the first failure stays unlinked.  The root directory itself
    cannot be removed. *)
Definition rmtree (d : Path) : M unit :=
  es <- gets disk ;;
  match lookup es d with
  | None => raise (os.unresolved es d)
  | Some (Leaf _) => raise NotADirectoryError
  | Some (Dir sub) =>
      match d, rmtree_node (Dir sub) with
      | [], Some (Dir remaining) => modify (with_disk remaining) ;; raise PermissionError
      | [], _ => modify (with_disk []) ;; raise OSError
      | _ :: _, Some n' => modify (with_disk (update d (fun _ => Some n') es)) ;;
                           raise PermissionError
      | _ :: _, None => modify (with_disk (update d (fun _ => None) es))
      end
  end.

End shutil.

Module glob.

(** [glob.has_magic], on one name: it holds one of the characters [*],
    [?] and [[], which glob reads as a pattern. *)
Fixpoint has_magic (s : string) : bool :=
  match s with
  | EmptyString => false
  | String c s' =>
      Ascii.eqb c "*" || Ascii.eqb c "?" || Ascii.eqb c "[" || has_magic s'
  end.

(** No name of the directory is read as a pattern. *)
Definition literal (directory : Path) : bool :=
  forallb (fun x => negb (has_magic x)) directory.

(** [glob.glob(directory + "/**/*", recursive=True)], each result made
    absolute, for a [literal] directory: the script makes the directory part
    of the pattern, and this function does not expand a pattern in it.  A
    directory that cannot be listed, because it is missing or is no
    directory, contributes nothing: glob swallows the [OSError] of
    [os.scandir].  The disk has no symbolic links to follow. *)
Definition glob (directory : Path) : M (list Path) :=
  d <- gets disk ;;
  ret (match lookup d directory with
       | Some n => map (app directory) (glob_below n)
       | None => []
       end).

End glob.

(** [datetime.now()], in microseconds. *)
Definition datetime_now : M Z := gets clock.

(** [(now - ctime).days]: whole days, rounded down. *)
Definition timedelta_days (now ctime : Z) : Z := (now - ctime) / 86400000000.

(* ================================================================= *)
(** ** [sorted] *)

(** Python's [sorted(l, key=..., reverse=...)] on integer keys.  The built-in
    is a stable sort, and with [reverse=True] it reverses the list, sorts it
    stably and reverses the result.  A stable sort is determined by its input
    and the keys, so insertion from the right stands for it. *)
Section Sorted.

Context {A : Type} (key : A -> Z).

Fixpoint insert (x : A) (l : list A) : list A :=
  match l with
  | [] => [x]
  | y :: l' => if key x <=? key y then x :: l else y :: insert x l'
  end.

Definition sort (l : list A) : list A := fold_right insert [] l.

Definition sorted (l : list A) (reverse : bool) : list A :=
  if reverse then rev (sort (rev l)) else sort l.

End Sorted.

(* ================================================================= *)
(** ** class DisplayablePath *)

(** [str(path)] of an absolute path. *)
Definition str (p : Path) : string :=
  match p with
  | [] => "/"%string
  | _ :: _ => String.concat "" (map (fun x => ("/" ++ x)%string) p)
  end.

(** [sorted(l, key=...)] on string keys: the stable sort of [sorted] above,
    with the order of Python strings, which on their UTF-8 bytes is that of
    [String.leb]. *)
Section SortedOn.

Context {A : Type} (key : A -> string).

Fixpoint insert_on (x : A) (l : list A) : list A :=
  match l with
  | [] => [x]
  | y :: l' => if String.leb (key x) (key y) then x :: l else y :: insert_on x l'
  end.

Definition sorted_on (l : list A) : list A := fold_right insert_on [] l.

End SortedOn.

Module bcolors.

Definition OKGREEN : string := String (Ascii.ascii_of_nat 27) "[92m".
Definition ENDC : string := String (Ascii.ascii_of_nat 27) "[0m".

End bcolors.

Module DisplayablePath.

Definition display_filename_prefix_middle : string := "├──".
Definition display_filename_prefix_last : string := "└──".
Definition display_parent_prefix_middle : string := "    ".
Definition display_parent_prefix_last : string := "│   ".

(** An instance.  [parent] is [None] for the root of a tree. *)
Inductive t : Type := mk {
  path : Path;
  parent : option t;
  child_to_highlight : Path;
  is_last : bool;
  depth : nat
}.

(** [DisplayablePath(path, child_to_highlight, parent_path, is_last)].  An
    instance is true as a condition, so [if self.parent] asks whether there
    is a parent. *)
Definition __init__ (path child_to_highlight : Path) (parent_path : option t)
           (is_last : bool) : t :=
  mk path parent_path child_to_highlight is_last
     (match parent_path with
      | Some parent => S (depth parent)
      | None => O
      end).

(** The loop of [make_tree] over the sorted children, each of them being
    what it yields once it is told whether it is the last. *)
Fixpoint visit (children : list (Path * (bool -> list t))) (count len : nat)
  : list t :=
  match children with
  | [] => []
  | (_, yielded) :: rest =>
      yielded (Nat.eqb count len) ++ visit rest (S count) len
  end.

Section Lower.

(** [str.lower], on the UTF-8 bytes of a string. *)
Variable lower : string -> string.

(** What the loop of [make_tree] yields for one child [c] at [path]: the
    tree of [make_tree] when it is a directory, the child itself when it is
    not.  [criteria] is [_default_criteria] throughout, which lets every
    entry pass.  The children are paired with what they yield before they
    are sorted, so that the recursion follows the directory. *)
Fixpoint yield_child (c : node) (path child_to_highlight : Path)
         (parent : option t) (is_last : bool) {struct c} : list t :=
  match c with
  | Leaf _ => [__init__ path child_to_highlight parent is_last]
  | Dir es =>
      let displayable_root := __init__ path child_to_highlight parent is_last in
      let children :=
        sorted_on (fun child : Path * (bool -> list t) => lower (str (fst child)))
          (map (fun xc : string * node =>
                  (path ++ [fst xc],
                   yield_child (snd xc) (path ++ [fst xc]) child_to_highlight
                               (Some displayable_root)))
               es) in
      displayable_root :: visit children 1 (List.length children)
  end.

(** [make_tree(root, child_to_highlight, parent, is_last)] on a directory
    [root] whose entries are [es]. *)
Definition make_tree (es : entries) (root child_to_highlight : Path)
           (parent : option t) (is_last : bool) : list t :=
  yield_child (Dir es) root child_to_highlight parent is_last.

End Lower.

(** [self.path.name]: the last component, empty for [/]. *)
Definition name (self : t) : string := last (path self) ""%string.

(** The second [displayname], which replaces the first.  [is_dir] asks the
    disk. *)
Definition displayname (disk : entries) (self : t) : string :=
  match lookup disk (path self) with
  | Some (Dir _) => (name self ++ "/")%string
  | _ =>
      if list_eq_dec string_dec (path self) (child_to_highlight self)
      then (bcolors.OKGREEN ++ name self ++ bcolors.ENDC)%string
      else name self
  end.

(** The [while] loop of [displayable], from [parent] upwards: one prefix
    for every ancestor but the root, the nearest first. *)
Fixpoint parent_prefixes (parent : t) : list string :=
  match parent with
  | mk _ None _ _ _ => []
  | mk _ (Some grandparent) _ last _ =>
      (if last then display_parent_prefix_middle
       else display_parent_prefix_last) :: parent_prefixes grandparent
  end.

Definition displayable (disk : entries) (self : t) : string :=
  match parent self with
  | None => displayname disk self
  | Some parent =>
      let _filename_prefix :=
        if is_last self then display_filename_prefix_last
        else display_filename_prefix_middle in
      let parts :=
        (_filename_prefix ++ " " ++ displayname disk self)%string
          :: parent_prefixes parent in
      String.concat "" (rev parts)
  end.

(** The lines [print_as_tree] prints below "Absolute path": those of
    [make_tree(Path(directory), path)].  When the directory cannot be listed
    the root is all that was yielded. *)
Definition printed (lower : string -> string) (disk : entries)
           (directory child_to_highlight : Path) : list string :=
  match lookup disk directory with
  | Some (Dir es) =>
      map (displayable disk)
          (make_tree lower es directory child_to_highlight None false)
  | _ => [displayable disk (__init__ directory child_to_highlight None false)]
  end.

End DisplayablePath.

(* ================================================================= *)
(** ** class File *)

Module File.

(** [File.files], the class attribute: read through the class or through any
    instance, it is the one list of the process. *)
Definition files : M (list File) := gets File_files.

Definition files_by_size : M (list File) :=
  l <- files ;; ret (sorted size_in_bytes l false).

Definition files_by_age : M (list File) :=
  l <- files ;; ret (sorted age_in_days l true).

Definition determine_directory (p : Path) : Path := os.dirname p.

(** [convert_to_human_readable_size], for whether it raises: [math.log]
    refuses a negative size, and [size_name] has nine entries.  The index is
    the floor of the logarithm to base 1024; the source computes it in
    floating point, which agrees with this for every size a file can have
    (below [2^63]).  The string it returns is not kept. *)
Definition convert_to_human_readable_size (size_in_bytes : Z) : M unit :=
  if size_in_bytes =? 0 then ret tt
  else if size_in_bytes <? 0 then raise ValueError
  else if 9 <=? Z.log2 size_in_bytes / 10 then raise IndexError
  else ret tt.

Definition __init__ (path : Path) (size_in_bytes : Z) (age_in_days : Z) : M File :=
  id <- gets next_oid ;;
  modify (fun p => with_next_oid (S id) p) ;;
  convert_to_human_readable_size size_in_bytes ;;
  let self := mkFile id size_in_bytes path (determine_directory path) age_in_days in
  modify (fun p => with_File_files (File_files p ++ [self]) p) ;;
  ret self.

(** The tree of the file's directory.  [make_tree] yields the root before
    it lists the directory, so the root line is out when [iterdir] raises. *)
Definition print_as_tree (self : File) : M unit :=
  print (Out_absolute_path (path self)) ;;
  print (Out_tree_root (directory self)) ;;
  d <- gets disk ;;
  match lookup d (directory self) with
  | Some (Dir _) => print (Out_tree_children (directory self) (path self))
  | Some (Leaf _) => raise NotADirectoryError
  | None => raise (os.unresolved d (directory self))
  end.

Definition delete_file (self : File) : M unit := os.remove (path self).

Definition delete_file_directory (self : File) : M unit :=
  shutil.rmtree (directory self).

End File.

(* ================================================================= *)
(** ** class StateMachine *)

Module StateMachine.

Inductive action : Type :=
| Delete_file | Delete_file_directory | Skip | Skip_directory | Print_help.

(** [self.actions], the dictionary built by [__init__]. *)
Definition actions : list (string * action) :=
  [ ("d"%string, Delete_file);
    ("D"%string, Delete_file_directory);
    ("s"%string, Skip);
    ("S"%string, Skip_directory);
    ("?"%string, Print_help) ].

Fixpoint get (choice : string) (d : list (string * action)) : option action :=
  match d with
  | [] => None
  | (k, a) :: d' => if String.eqb k choice then Some a else get choice d'
  end.

(** [StateMachine(files)]: [files[0]] raises on the empty list. *)
Definition __init__ (files : list File) : M StateMachine :=
  match files with
  | [] => raise IndexError
  | f :: _ => ret (mkStateMachine files f)
  end.

(** [l.index(x)], on identities. *)
Fixpoint index (x : File) (l : list File) : option nat :=
  match l with
  | [] => None
  | y :: l' => if Nat.eqb (oid y) (oid x) then Some O
               else option_map S (index x l')
  end.

(** [x in l] on strings. *)
Definition contains (x : Path) (l : list Path) : bool :=
  existsb (fun y => if list_eq_dec string_dec y x then true else false) l.

(** [prompt] takes no [fuel]: the frames of [prompt], [print_as_tree],
    [make_tree] and the library below them are given back when [prompt]
    returns.  What they add to the depth of the stack while the prompt runs
    is not counted, so the frames counted below are a lower bound of what
    the interpreter needs. *)
Definition prompt (self : StateMachine) : M string :=
  File.print_as_tree (current_file self) ;;
  print Out_blank ;;
  print Out_choose_option ;;
  input.

(** The methods that call each other.  [self] is one mutable object: a
    method returns it as the calls below left it, and its caller goes on
    with that.

    [fuel] is the number of frames the interpreter still grants
    ([sys.getrecursionlimit()] less the depth of the caller): a call made
    with none left raises [RecursionError].  Only the frames of these seven
    methods are counted; those of [prompt], [print_as_tree] and the library
    are gone when the call returns.  A run that does not end with
    [RecursionError] is the run of the script with frames enough. *)
Fixpoint transition (fuel : nat) (self : StateMachine) {struct fuel}
  : M StateMachine :=
  match fuel with
  | O => raise RecursionError
  | S fuel' =>
      e <- os.exists_ (path (current_file self)) ;;
      self <- (if negb e then advance fuel' self else ret self) ;;
      ign <- gets directories_to_ignore ;;
      self <- (if contains (directory (current_file self)) ign
               then advance fuel' self else ret self) ;;
      choice <- prompt self ;;
      match get choice actions with
      | Some Delete_file => delete_file fuel' self
      | Some Delete_file_directory => delete_file_directory fuel' self
      | Some Skip => skip fuel' self
      | Some Skip_directory => skip_directory fuel' self
      | Some Print_help => print_help fuel' self
      | None => transition fuel' self
      end
  end

with delete_file (fuel : nat) (self : StateMachine) {struct fuel}
  : M StateMachine :=
  match fuel with
  | O => raise RecursionError
  | S fuel' =>
      File.delete_file (current_file self) ;;
      advance fuel' self
  end

with delete_file_directory (fuel : nat) (self : StateMachine) {struct fuel}
  : M StateMachine :=
  match fuel with
  | O => raise RecursionError
  | S fuel' =>
      File.delete_file_directory (current_file self) ;;
      advance fuel' self
  end

with skip (fuel : nat) (self : StateMachine) {struct fuel} : M StateMachine :=
  match fuel with
  | O => raise RecursionError
  | S fuel' => advance fuel' self
  end

with skip_directory (fuel : nat) (self : StateMachine) {struct fuel}
  : M StateMachine :=
  match fuel with
  | O => raise RecursionError
  | S fuel' =>
      modify (fun p => with_directories_to_ignore
                         (directories_to_ignore p
                            ++ [directory (current_file self)]) p) ;;
      advance fuel' self
  end

with advance (fuel : nat) (self : StateMachine) {struct fuel}
  : M StateMachine :=
  match fuel with
  | O => raise RecursionError
  | S fuel' =>
      match index (current_file self) (files self) with
      | None => raise ValueError
      | Some current_file_index =>
          let next_file_index := S current_file_index in
          if (List.length (files self) <=? next_file_index)%nat then ret self
          else match nth_error (files self) next_file_index with
               | Some f => transition fuel' (mkStateMachine (files self) f)
               | None => raise IndexError
               end
      end
  end

with print_help (fuel : nat) (self : StateMachine) {struct fuel}
  : M StateMachine :=
  match fuel with
  | O => raise RecursionError
  | S fuel' =>
      print Out_help_menu ;;
      transition fuel' self
  end.

End StateMachine.

(* ================================================================= *)
(** ** [main] *)

(** The body of the [for] statement of [main], over the paths glob
    returned. *)
Fixpoint scan_paths (paths : list Path) : M unit :=
  match paths with
  | [] => ret tt
  | path :: rest =>
      d <- os.isdir path ;;
      if d then scan_paths rest
      else
        size <- os.getsize path ;;
        st <- os.stat path ;;
        now <- datetime_now ;;
        File.__init__ path size (timedelta_days now (st_ctime st)) ;;
        scan_paths rest
  end.

(** The [for] statement of [main]: one [File] for each path of the glob
    that is no directory. *)
Definition scan (directory : Path) : M unit :=
  paths <- glob.glob directory ;;
  scan_paths paths.

(** [main], after [ensure_user_is_root]: [directory] and [order_by] are
    [sys.argv[1]] and [sys.argv[2]], [fuel] the frames left below [main]. *)
Definition main (directory : Path) (order_by : string) (fuel : nat)
  : M StateMachine :=
  scan directory ;;
  files <- (if String.eqb order_by "age" then File.files_by_age
            else if String.eqb order_by "size" then File.files_by_size
            else raise UnboundLocalError) ;;
  self <- StateMachine.__init__ files ;;
  StateMachine.transition fuel self.

(* ================================================================= *)
(** ** Vocabulary of the statements *)

(** What one call of [prompt] on a file writes when its directory can be
    listed. *)
Definition prompt_output (f : File) : list output :=
  [ Out_absolute_path (path f); Out_tree_root (directory f);
    Out_tree_children (directory f) (path f); Out_blank; Out_choose_option ].

(** The process after [prompt] wrote the tree of [f] and read one token,
    [rest] being what is left of standard input. *)
Definition prompted (f : File) (rest : list string) (p : process) : process :=
  with_stdin rest (with_stdout (stdout p ++ prompt_output f) p).

(** A record the session does not treat as resolved: its path exists and
    its directory is not ignored. *)
Definition fresh (f : File) (p : process) : bool :=
  match lookup (disk p) (path f) with Some _ => true | None => false end
  && negb (StateMachine.contains (directory f) (directories_to_ignore p)).

(** The directory of the record can be listed. *)
Definition listable (f : File) (p : process) : bool :=
  match lookup (disk p) (directory f) with Some (Dir _) => true | _ => false end.

(** The cursor stands on the last record of the catalog. *)
Definition at_last (self : StateMachine) : bool :=
  match StateMachine.index (current_file self) (files self) with
  | Some i => (List.length (files self) <=? S i)%nat
  | None => false
  end.

(** The statements of [transition] before its prompt: the two checks of
    the current record, each with its call of [advance]. *)
Definition settle (fuel : nat) (self : StateMachine) : M StateMachine :=
  e <- os.exists_ (path (current_file self)) ;;
  self <- (if negb e then StateMachine.advance fuel self else ret self) ;;
  ign <- gets directories_to_ignore ;;
  (if StateMachine.contains (directory (current_file self)) ign
   then StateMachine.advance fuel self else ret self).

(** What [transition] does once it has read [tok], as a function of the
    frames left to its callees. *)
Definition dispatch (fuel : nat) (self : StateMachine) (tok : string)
  : M StateMachine :=
  match StateMachine.get tok StateMachine.actions with
  | Some StateMachine.Delete_file => StateMachine.delete_file fuel self
  | Some StateMachine.Delete_file_directory =>
      StateMachine.delete_file_directory fuel self
  | Some StateMachine.Skip => StateMachine.skip fuel self
  | Some StateMachine.Skip_directory => StateMachine.skip_directory fuel self
  | Some StateMachine.Print_help => StateMachine.print_help fuel self
  | None => StateMachine.transition fuel self
  end.

(** The tokens that make the session advance. *)
Definition advancing (tok : string) : bool :=
  match StateMachine.get tok StateMachine.actions with
  | Some StateMachine.Print_help | None => false
  | Some _ => true
  end.

(** The path names a directory of the disk. *)
Definition is_directory (es : entries) (q : Path) : bool :=
  match lookup es q with Some (Dir _) => true | _ => false end.

(** No component of the path begins with a dot. *)
Definition visible (rel : Path) : bool :=
  forallb (fun x => negb (ishidden x)) rel.

(** The tokens that neither delete nor ignore anything. *)
Definition harmless (tok : string) : bool :=
  match StateMachine.get tok StateMachine.actions with
  | Some StateMachine.Delete_file | Some StateMachine.Delete_file_directory
  | Some StateMachine.Skip_directory => false
  | _ => true
  end.

(** [l1] is an initial segment of [l2]. *)
Definition prefix {A} (l1 l2 : list A) : Prop := exists l, l2 = l1 ++ l.

(** The process a computation ends in, whether it returned or raised. *)
Definition final {A} (r : result A) : process :=
  match r with Ok _ p => p | Raise _ p => p end.

(** Whenever [m] returns, what it returns satisfies [Q]. *)
Definition returns {A} (Q : A -> Prop) (m : M A) : Prop :=
  forall p a p', m p = Ok a p' -> Q a.

(** Every run of [m] ends in a process related by [R] to the one it
    started in. *)
Definition preserves {A} (R : process -> process -> Prop) (m : M A) : Prop :=
  forall p, R p (final (m p)).

(** The ignored directories of [p] are still the first of [p']. *)
Definition ignored_grow (p p' : process) : Prop :=
  prefix (directories_to_ignore p) (directories_to_ignore p').

(** The instances in [File.files] of [p] are still the first of [p']. *)
Definition files_grow (p p' : process) : Prop :=
  prefix (File_files p) (File_files p').

(** No string occurs twice. *)
Fixpoint unique (l : list string) : bool :=
  match l with
  | [] => true
  | x :: l' => negb (existsb (String.eqb x) l') && unique l'
  end.

(** Names are unique within every directory, and sizes are those of files:
    from 0 up to [2^63], excluded. *)
Fixpoint well_formed (n : node) : bool :=
  match n with
  | Leaf i => (0 <=? st_size i) && (st_size i <? 2 ^ 63)
  | Dir es =>
      unique (map fst es)
      && forallb (fun xc : string * node => well_formed (snd xc)) es
  end.

(** The frames of the seven methods that a session needs that has [k]
    records left, the current one included, all of them fresh, and is fed
    [toks], none of which deletes or ignores: one for [transition], one more
    for each unknown token, two for each [?], three for each [s].  The
    frames of the prompts are not in the count. *)
Fixpoint frames_needed (k : nat) (toks : list string) : nat :=
  match toks with
  | [] => 1
  | tok :: rest =>
      if String.eqb tok "s" then
        match k with
        | O | S O => 3
        | S k' => 3 + frames_needed k' rest
        end
      else if String.eqb tok "?" then 2 + frames_needed k rest
      else 1 + frames_needed k rest
  end%nat.

(** The disk and the ignored directories of [p'] are those of [p], and
    when only harmless tokens wait on standard input in [p], so it is in
    [p']. *)
Definition undisturbed (p p' : process) : Prop :=
  disk p' = disk p
  /\ directories_to_ignore p' = directories_to_ignore p
  /\ (forallb harmless (stdin p) = true -> forallb harmless (stdin p') = true).

(** What [os.path.exists] and [os.path.isdir] can tell about a path:
    nothing there, a directory, or something else. *)
Definition kind (es : entries) (q : Path) : option bool :=
  match lookup es q with
  | Some (Dir _) => Some true
  | Some (Leaf _) => Some false
  | None => None
  end.

(** The step of [update] below the first component. *)
Definition update_below (d : Path) (f : node -> option node) (c : node)
  : node :=
  match c with
  | Dir sub => Dir (update d f sub)
  | Leaf _ => c
  end.

(** What lies at [rel] below a node, the node itself at the empty path. *)
Definition lookup_in (n : node) (rel : Path) : option node :=
  match n with
  | Dir es => lookup es rel
  | Leaf _ => match rel with [] => Some n | _ :: _ => None end
  end.

(** An instance of [DisplayablePath] is linked to its parent as [__init__]
    links it: the root of a tree has depth 0, any other instance is one
    deeper than its parent, which has as many parent prefixes as its
    depth. *)
Definition linked (dp : DisplayablePath.t) : Prop :=
  match DisplayablePath.parent dp with
  | None => DisplayablePath.depth dp = O
  | Some par =>
      DisplayablePath.depth dp = S (DisplayablePath.depth par)
      /\ DisplayablePath.depth par
         = List.length (DisplayablePath.parent_prefixes par)
  end.

(** The run ended because the stack was exhausted. *)
Definition overflowed {A} (r : result A) : bool :=
  match r with
  | Raise RecursionError _ => true
  | _ => false
  end.

(** [m'] does what [m] does wherever [m] does not exhaust the stack. *)
Definition extends {A} (m m' : M A) : Prop :=
  forall p, overflowed (m p) = true \/ m' p = m p.

(** The run that prompts for the current record of [self] in [p] and
    dispatches the token it reads with [fuel] frames; at the end of
    standard input the prompt ends the run. *)
Definition reprompted (fuel : nat) (self : StateMachine) (p : process)
  : result StateMachine :=
  match stdin p with
  | [] =>
      Raise EOFError
            (with_stdout (stdout p ++ prompt_output (current_file self)) p)
  | tok :: rest => dispatch fuel self tok (prompted (current_file self) rest p)
  end.

(** The cursor of the session is a record of its catalog. *)
Definition in_catalog (self : StateMachine) : Prop :=
  StateMachine.index (current_file self) (files self) <> None.

(** [count] going up along a list, as the loop of [make_tree] keeps it. *)
Fixpoint numbered {A : Type} (l : list A) (count : nat) : list (nat * A) :=
  match l with
  | [] => []
  | x :: l' => (count, x) :: numbered l' (S count)
  end.

(** The depth a call of [make_tree] gives to its root. *)
Definition root_depth (parent : option DisplayablePath.t) : nat :=
  match parent with
  | Some p => S (DisplayablePath.depth p)
  | None => O
  end.

(** Every path at or below a node, relative to [root], in listing order. *)
Fixpoint tree_paths (n : node) (root : Path) : list Path :=
  match n with
  | Leaf _ => [root]
  | Dir es =>
      root :: flat_map (fun xc : string * node =>
                          tree_paths (snd xc) (root ++ [fst xc])) es
  end.

(* ================================================================= *)
(** ** Scenarios *)

Module Scenario.

Definition regular (size : Z) : node := Leaf (mkInode true size 0 false).

Definition locked (size : Z) : node := Leaf (mkInode true size 0 true).

(** A process that has just started on disk [d] with [inp] on standard
    input. *)
Definition boot (d : entries) (inp : list string) : process :=
  mkProcess d 0 [] [] O inp [].

(** [/x/a] and [/x/b]. *)
Definition disk_x : entries :=
  [("x"%string, Dir [("a"%string, regular 5); ("b"%string, regular 10)])].

(** [/x/a], which cannot be unlinked, and [/x/b]. *)
Definition disk_locked : entries :=
  [("x"%string, Dir [("a"%string, locked 5); ("b"%string, regular 10)])].


(** [/x/a], [/x/b] and [/y/c]. *)
Definition disk_xy : entries :=
  [("x"%string, Dir [("a"%string, regular 5); ("b"%string, regular 10)]);
   ("y"%string, Dir [("c"%string, regular 20)])].

(** [/r/.hidden], [/r/seen] and [/r/.git/config]. *)
Definition disk_hidden : entries :=
  [("r"%string, Dir [(".hidden"%string, regular 7);
                     ("seen"%string, regular 8);
                     (".git"%string, Dir [("config"%string, regular 9)])])].

Definition A : File := mkFile 0 5 ["x"; "a"]%string ["x"%string] 0.
Definition B : File := mkFile 1 10 ["x"; "b"]%string ["x"%string] 0.
Definition C : File := mkFile 2 20 ["y"; "c"]%string ["y"%string] 0.

(** [str.lower] on ASCII strings. *)
Definition lower_ascii (c : ascii) : ascii :=
  let n := nat_of_ascii c in
  if ((65 <=? n) && (n <=? 90))%nat then ascii_of_nat (n + 32) else c.

Fixpoint lower (s : string) : string :=
  match s with
  | EmptyString => EmptyString
  | String c s' => String (lower_ascii c) (lower s')
  end.

(** [/x/b], [/x/sub/c], [/x/A] and [/x/.h], and an empty [/y]. *)
Definition disk_tree : entries :=
  [("x"%string, Dir [("b"%string, regular 5);
                     ("sub"%string, Dir [("c"%string, regular 1)]);
                     ("A"%string, regular 10);
                     (".h"%string, regular 1)]);
   ("y"%string, Dir [])].

End Scenario.

(* ================================================================= *)
(** * Properties *)

(** ** The orderings of the catalog *)

Section SortedFacts.

Context {A : Type} (key : A -> Z).

Lemma insert_perm (x : A) (l : list A) : Permutation (x :: l) (insert key x l).
Proof.
  induction l as [|y l IH]; simpl.
  - apply Permutation_refl.
  - destruct (key x <=? key y).
    + apply Permutation_refl.
    + eapply perm_trans; [apply perm_swap|]. now apply perm_skip.
Qed.

Lemma sort_perm (l : list A) : Permutation l (sort key l).
Proof.
  induction l as [|x l IH]; simpl.
  - constructor.
  - eapply perm_trans; [apply perm_skip, IH|]. apply insert_perm.
Qed.

Lemma insert_sorted (x : A) (l : list A) :
  StronglySorted (fun a b => key a <= key b) l ->
  StronglySorted (fun a b => key a <= key b) (insert key x l).
Proof.
  induction 1 as [|y l Hs IH Hy]; simpl.
  - repeat constructor.
  - destruct (key x <=? key y) eqn:E.
    + apply Z.leb_le in E. constructor.
      * now constructor.
      * constructor; [exact E|].
        eapply Forall_impl; [|exact Hy]. simpl. intros; lia.
    + apply Z.leb_gt in E. constructor; [exact IH|].
      eapply Permutation_Forall; [apply insert_perm|].
      constructor; [lia|exact Hy].
Qed.

Lemma sort_sorted (l : list A) :
  StronglySorted (fun a b => key a <= key b) (sort key l).
Proof.
  induction l as [|x l IH]; simpl.
  - constructor.
  - now apply insert_sorted.
Qed.

(** Among the elements of one key, [insert] puts the new one first. *)
Lemma insert_filter (k : Z) (x : A) (l : list A) :
  filter (fun a => key a =? k) (insert key x l)
  = filter (fun a => key a =? k) (x :: l).
Proof.
  induction l as [|y l IH]; simpl.
  - reflexivity.
  - destruct (key x <=? key y) eqn:E.
    + reflexivity.
    + apply Z.leb_gt in E. simpl in *. rewrite IH.
      destruct (key x =? k) eqn:Ex, (key y =? k) eqn:Ey; try reflexivity.
      apply Z.eqb_eq in Ex, Ey. lia.
Qed.

Lemma sort_filter (k : Z) (l : list A) :
  filter (fun a => key a =? k) (sort key l) = filter (fun a => key a =? k) l.
Proof.
  induction l as [|x l IH]; simpl.
  - reflexivity.
  - rewrite insert_filter. simpl. now rewrite IH.
Qed.

Lemma filter_rev_eq (f : A -> bool) (l : list A) :
  filter f (rev l) = rev (filter f l).
Proof.
  induction l as [|x l IH]; simpl.
  - reflexivity.
  - rewrite filter_app, IH. simpl. destruct (f x); simpl.
    + reflexivity.
    + now rewrite app_nil_r.
Qed.

Lemma StronglySorted_snoc (R : A -> A -> Prop) (l : list A) (x : A) :
  StronglySorted R l -> Forall (fun a => R a x) l -> StronglySorted R (l ++ [x]).
Proof.
  induction 1 as [|y l Hs IH Hy]; intros Hx; simpl.
  - repeat constructor.
  - inversion Hx; subst. constructor.
    + now apply IH.
    + apply Forall_app. split; [exact Hy|]. now repeat constructor.
Qed.

Lemma StronglySorted_rev (R : A -> A -> Prop) (l : list A) :
  StronglySorted R l -> StronglySorted (fun a b => R b a) (rev l).
Proof.
  induction 1 as [|y l Hs IH Hy]; simpl.
  - constructor.
  - apply StronglySorted_snoc; [exact IH|].
    apply Forall_rev. exact Hy.
Qed.

Lemma sorted_perm (l : list A) (reverse : bool) :
  Permutation l (sorted key l reverse).
Proof.
  unfold sorted. destruct reverse.
  - eapply perm_trans; [apply Permutation_rev|].
    eapply perm_trans; [apply sort_perm|]. apply Permutation_rev.
  - apply sort_perm.
Qed.

Lemma sorted_stable (k : Z) (l : list A) (reverse : bool) :
  filter (fun a => key a =? k) (sorted key l reverse)
  = filter (fun a => key a =? k) l.
Proof.
  unfold sorted. destruct reverse.
  - now rewrite filter_rev_eq, sort_filter, filter_rev_eq, rev_involutive.
  - apply sort_filter.
Qed.

End SortedFacts.

(** C2. Ordering by size returns the records of [File.files] in
    non-decreasing order of [size_in_bytes], ordering by age in
    non-increasing order of [age_in_days]; both return every record once,
    and both are stable: the records of one key keep the order in which they
    were constructed. *)
Theorem files_by_size_and_age_ordered_stable (p : process) :
  exists by_size by_age : list File,
    File.files_by_size p = Ok by_size p
    /\ File.files_by_age p = Ok by_age p
    /\ StronglySorted (fun a b => size_in_bytes a <= size_in_bytes b) by_size
    /\ StronglySorted (fun a b => age_in_days b <= age_in_days a) by_age
    /\ Permutation (File_files p) by_size
    /\ Permutation (File_files p) by_age
    /\ (forall k, filter (fun f => size_in_bytes f =? k) by_size
                  = filter (fun f => size_in_bytes f =? k) (File_files p))
    /\ (forall k, filter (fun f => age_in_days f =? k) by_age
                  = filter (fun f => age_in_days f =? k) (File_files p)).
Proof.
  exists (sorted size_in_bytes (File_files p) false),
         (sorted age_in_days (File_files p) true).
  split; [reflexivity|]. split; [reflexivity|].
  split; [apply sort_sorted|].
  split.
  { unfold sorted.
    apply (StronglySorted_rev (fun a b => age_in_days a <= age_in_days b)).
    apply sort_sorted. }
  split; [apply sorted_perm|]. split; [apply sorted_perm|].
  split; intros k; apply sorted_stable.
Qed.

(** ** Construction of a session *)

(** C4, as the code has it.  [StateMachine(files)] on the empty list raises
    the built-in [IndexError] of [files[0]]; on a non-empty list it returns a
    session whose current file is the first one, at index 0, and leaves the
    process as it was. *)
Theorem init_empty_IndexError_nonempty_first (p : process) :
  StateMachine.__init__ [] p = Raise IndexError p
  /\ forall (f : File) (l : list File),
       StateMachine.__init__ (f :: l) p = Ok (mkStateMachine (f :: l) f) p
       /\ StateMachine.index (current_file (mkStateMachine (f :: l) f))
                             (files (mkStateMachine (f :: l) f)) = Some O.
Proof.
  split; [reflexivity|]. intros f l. split; [reflexivity|].
  simpl. now rewrite Nat.eqb_refl.
Qed.

(** C4, counterexample.  On the empty catalog the constructor does not fail
    with [EmptyCatalogError]. *)
Lemma init_empty_not_EmptyCatalogError :
  StateMachine.__init__ [] (Scenario.boot [] [])
  = Raise IndexError (Scenario.boot [] [])
  /\ StateMachine.__init__ [] (Scenario.boot [] [])
     <> Raise EmptyCatalogError (Scenario.boot [] []).
Proof.
  split; [reflexivity|]. discriminate.
Qed.

(** ** One step of the session *)

Lemma bind_Ok {A B} (m : M A) (k : A -> M B) (p p' : process) (a : A) :
  m p = Ok a p' -> bind m k p = k a p'.
Proof. unfold bind. now intros ->. Qed.

Lemma bind_Raise {A B} (m : M A) (k : A -> M B) (p p' : process) (e : exn) :
  m p = Raise e p' -> bind m k p = Raise e p'.
Proof. unfold bind. now intros ->. Qed.

(** [transition] is its two checks, its prompt and its dispatch. *)
Lemma transition_unfold (fuel : nat) (self : StateMachine) (p : process) :
  StateMachine.transition (S fuel) self p
  = (self2 <- settle fuel self ;;
     choice <- StateMachine.prompt self2 ;;
     dispatch fuel self2 choice) p.
Proof.
  change (StateMachine.transition (S fuel) self p)
    with ((e <- os.exists_ (path (current_file self)) ;;
           self1 <- (if negb e then StateMachine.advance fuel self
                     else ret self) ;;
           ign <- gets directories_to_ignore ;;
           self2 <- (if StateMachine.contains (directory (current_file self1)) ign
                     then StateMachine.advance fuel self1 else ret self1) ;;
           choice <- StateMachine.prompt self2 ;;
           dispatch fuel self2 choice) p).
  unfold settle, bind.
  destruct (os.exists_ (path (current_file self)) p) as [e p1|e1 p1];
    [|reflexivity].
  destruct ((if negb e then StateMachine.advance fuel self else ret self) p1)
    as [self1 p2|e2 p2]; [|reflexivity].
  destruct (gets directories_to_ignore p2) as [ign p3|e3 p3]; [|reflexivity].
  destruct ((if StateMachine.contains (directory (current_file self1)) ign
             then StateMachine.advance fuel self1 else ret self1) p3);
    reflexivity.
Qed.

Lemma transition_after_prompt (fuel : nat) (self self2 : StateMachine)
      (p p2 p3 : process) (tok : string) :
  settle fuel self p = Ok self2 p2 ->
  StateMachine.prompt self2 p2 = Ok tok p3 ->
  StateMachine.transition (S fuel) self p = dispatch fuel self2 tok p3.
Proof.
  intros Hs Hp. rewrite transition_unfold.
  rewrite (bind_Ok _ _ _ _ _ Hs). now rewrite (bind_Ok _ _ _ _ _ Hp).
Qed.

Lemma prompt_listable (self : StateMachine) (p : process)
      (tok : string) (rest : list string) :
  listable (current_file self) p = true ->
  stdin p = tok :: rest ->
  StateMachine.prompt self p = Ok tok (prompted (current_file self) rest p).
Proof.
  unfold listable, StateMachine.prompt, File.print_as_tree, prompted.
  intros Hl Hin.
  unfold bind, print, modify, gets, input. simpl.
  destruct (lookup (disk p) (directory (current_file self))) as [[|es]|];
    try discriminate.
  simpl. rewrite Hin. unfold with_stdin, with_stdout, prompt_output. simpl.
  repeat rewrite <- app_assoc. reflexivity.
Qed.

(** A prompt that returns has written the tree and read one token, and has
    done nothing else. *)
Lemma prompt_inv (self : StateMachine) (p p3 : process) (tok : string) :
  StateMachine.prompt self p = Ok tok p3 ->
  exists rest : list string,
    stdin p = tok :: rest
    /\ listable (current_file self) p = true
    /\ p3 = prompted (current_file self) rest p.
Proof.
  intros Hp.
  destruct (listable (current_file self) p) eqn:El.
  - destruct (stdin p) as [|t rest] eqn:Ein.
    + exfalso. revert Hp.
      unfold listable in El.
      unfold StateMachine.prompt, File.print_as_tree, bind, print, modify,
        gets, input.
      simpl.
      destruct (lookup (disk p) (directory (current_file self))) as [[|es]|];
        try discriminate.
      simpl. rewrite Ein. discriminate.
    + rewrite (prompt_listable self p t rest El Ein) in Hp.
      injection Hp as -> <-. now exists rest.
  - exfalso. revert Hp. unfold listable in El.
    unfold StateMachine.prompt, File.print_as_tree, bind, print, modify,
      gets, input, raise.
    simpl.
    destruct (lookup (disk p) (directory (current_file self))) as [[|es]|];
      discriminate.
Qed.

Lemma advance_at_last (fuel : nat) (self : StateMachine) (p : process) :
  at_last self = true ->
  StateMachine.advance (S fuel) self p = Ok self p.
Proof.
  unfold at_last. simpl.
  destruct (StateMachine.index (current_file self) (files self)); [|discriminate].
  intros H. rewrite H. reflexivity.
Qed.

Lemma returns_bind {A B} (Q : B -> Prop) (m : M A) (k : A -> M B) :
  (forall a, returns Q (k a)) -> returns Q (bind m k).
Proof.
  intros Hk p b p'. unfold bind. destruct (m p) as [a p1|e p1]; [|discriminate].
  apply Hk.
Qed.

Lemma returns_raise {A} (Q : A -> Prop) (e : exn) : returns Q (raise e).
Proof. intros p a p'. discriminate. Qed.

(** Whichever of the seven methods returns, the cursor is on the last
    record: [advance] is the only one that returns by itself, and it does so
    only there. *)
Lemma methods_return_at_last (fuel : nat) :
  let Q := fun s : StateMachine => at_last s = true in
  (forall self, returns Q (StateMachine.transition fuel self))
  /\ (forall self, returns Q (StateMachine.delete_file fuel self))
  /\ (forall self, returns Q (StateMachine.delete_file_directory fuel self))
  /\ (forall self, returns Q (StateMachine.skip fuel self))
  /\ (forall self, returns Q (StateMachine.skip_directory fuel self))
  /\ (forall self, returns Q (StateMachine.advance fuel self))
  /\ (forall self, returns Q (StateMachine.print_help fuel self)).
Proof.
  intros Q.
  induction fuel as [|fuel (Ht & Hd & HD & Hs & HS & Ha & Hh)].
  - repeat split; intros self; apply returns_raise.
  - repeat split; intros self.
    + cbn [StateMachine.transition].
      do 5 (apply returns_bind; intros).
      destruct (StateMachine.get _ _) as [[| | | |]|]; auto.
    + cbn [StateMachine.delete_file]. apply returns_bind; intros. apply Ha.
    + cbn [StateMachine.delete_file_directory]. apply returns_bind; intros.
      apply Ha.
    + cbn [StateMachine.skip]. apply Ha.
    + cbn [StateMachine.skip_directory]. apply returns_bind; intros. apply Ha.
    + cbn [StateMachine.advance].
      destruct (StateMachine.index (current_file self) (files self))
        as [i|] eqn:Ei; [|apply returns_raise].
      cbv zeta.
      destruct (List.length (files self) <=? S i)%nat eqn:El.
      * intros p a p' [= <- _]. unfold Q, at_last. now rewrite Ei.
      * destruct (nth_error (files self) (S i)); [apply Ht|apply returns_raise].
    + cbn [StateMachine.print_help]. apply returns_bind; intros. apply Ht.
Qed.

Lemma advance_returns_at_last (fuel : nat) (self self' : StateMachine)
      (p p' : process) :
  StateMachine.advance fuel self p = Ok self' p' -> at_last self' = true.
Proof. apply (methods_return_at_last fuel). Qed.

(** The record [transition] prompts for is fresh, or is the last one. *)
Lemma settle_settled (fuel : nat) (self self2 : StateMachine)
      (p p2 : process) :
  settle fuel self p = Ok self2 p2 ->
  fresh (current_file self2) p2 || at_last self2 = true.
Proof.
  unfold settle, os.exists_. unfold bind at 1. unfold bind at 1.
  unfold gets at 1. unfold ret at 1. unfold fresh.
  destruct (lookup (disk p) (path (current_file self))) as [n|] eqn:El;
    cbn [negb].
  - unfold bind at 1. unfold ret at 1. unfold bind at 1. unfold gets at 1.
    destruct (StateMachine.contains (directory (current_file self))
                (directories_to_ignore p)) eqn:Ec.
    + intros H. apply advance_returns_at_last in H. rewrite H.
      apply orb_true_r.
    + intros [= <- <-]. now rewrite El, Ec.
  - unfold bind at 1.
    destruct (StateMachine.advance fuel self p) as [self1 p1|e p1] eqn:Ea;
      [|discriminate].
    apply advance_returns_at_last in Ea.
    unfold bind at 1. unfold gets at 1.
    destruct (StateMachine.contains (directory (current_file self1))
                (directories_to_ignore p1)).
    + intros H. apply advance_returns_at_last in H. rewrite H.
      apply orb_true_r.
    + intros [= <- <-]. rewrite Ea. apply orb_true_r.
Qed.

(** On a record that is fresh, or is the last one, the checks leave the
    session where it is. *)
Lemma settle_again (fuel : nat) (self : StateMachine) (p : process) :
  fresh (current_file self) p || at_last self = true ->
  settle (S fuel) self p = Ok self p.
Proof.
  intros Hs. unfold fresh in Hs.
  unfold settle, os.exists_. unfold bind at 1. unfold bind at 1.
  unfold gets at 1. unfold ret at 1.
  set (b := match lookup (disk p) (path (current_file self)) with
            | Some _ => true | None => false end) in *.
  assert (Hadv1 : (if negb b then StateMachine.advance (S fuel) self
                   else ret self) p = Ok self p).
  { destruct (at_last self) eqn:El.
    - destruct b; cbn [negb]; [reflexivity|now apply advance_at_last].
    - destruct b; [reflexivity|]. rewrite orb_false_r in Hs. discriminate. }
  rewrite (bind_Ok _ _ _ _ _ Hadv1).
  unfold bind at 1. unfold gets at 1.
  destruct (at_last self) eqn:El.
  - destruct (StateMachine.contains _ _); [now apply advance_at_last|reflexivity].
  - destruct (StateMachine.contains _ _); [|reflexivity].
    rewrite orb_false_r, andb_false_r in Hs. discriminate.
Qed.

Lemma get_actions (tok : string) :
  StateMachine.get tok StateMachine.actions
  = if String.eqb "d" tok then Some StateMachine.Delete_file
    else if String.eqb "D" tok then Some StateMachine.Delete_file_directory
    else if String.eqb "s" tok then Some StateMachine.Skip
    else if String.eqb "S" tok then Some StateMachine.Skip_directory
    else if String.eqb "?" tok then Some StateMachine.Print_help
    else None.
Proof. reflexivity. Qed.

Ltac token_cases tok :=
  rewrite ?get_actions in *;
  destruct (String.eqb_spec "d" tok); [subst tok|];
  [|destruct (String.eqb_spec "D" tok); [subst tok|];
    [|destruct (String.eqb_spec "s" tok); [subst tok|];
      [|destruct (String.eqb_spec "S" tok); [subst tok|];
        [|destruct (String.eqb_spec "?" tok); [subst tok|]]]]].

Lemma get_help (tok : string) :
  StateMachine.get tok StateMachine.actions = Some StateMachine.Print_help
  <-> String.eqb tok "?" = true.
Proof.
  rewrite String.eqb_eq.
  token_cases tok; split; intros H; try discriminate; try reflexivity;
    congruence.
Qed.

Lemma get_skip (tok : string) :
  StateMachine.get tok StateMachine.actions = Some StateMachine.Skip
  <-> String.eqb tok "s" = true.
Proof.
  rewrite String.eqb_eq.
  token_cases tok; split; intros H; try discriminate; try reflexivity;
    congruence.
Qed.

(** The process after [print_help] wrote its menu. *)
Lemma print_help_step (fuel : nat) (self : StateMachine) (p : process) :
  StateMachine.print_help (S fuel) self p
  = StateMachine.transition fuel self
      (with_stdout (stdout p ++ [Out_help_menu]) p).
Proof. reflexivity. Qed.

(** ** Frames that are not needed *)

Lemma overflowed_false {A} (r : result A) :
  overflowed r = false <-> forall p', r <> Raise RecursionError p'.
Proof.
  destruct r as [a p|e p].
  - split; [intros _ p'; discriminate|reflexivity].
  - destruct e; cbn [overflowed];
      (split; [intros H p' E; discriminate|intros H]);
      try reflexivity.
    exfalso. now apply (H p).
Qed.

Lemma extends_refl {A} (m : M A) : extends m m.
Proof. intros p. now right. Qed.

Lemma extends_overflow {A} (m' : M A) : extends (raise RecursionError) m'.
Proof. intros p. now left. Qed.

Lemma extends_bind {A B} (m m' : M A) (k k' : A -> M B) :
  extends m m' -> (forall a, extends (k a) (k' a)) ->
  extends (bind m k) (bind m' k').
Proof.
  intros Hm Hk p. unfold bind.
  destruct (Hm p) as [Ho| ->].
  - left. destruct (m p) as [a p1|e p1]; [discriminate|exact Ho].
  - destruct (m p) as [a p1|e p1]; [apply Hk|now right].
Qed.

(** A run that does not exhaust the stack is the same run with more
    frames. *)
Lemma methods_extend (k fuel : nat) :
  let more (m : nat -> StateMachine -> M StateMachine) :=
      forall self, extends (m fuel self) (m (k + fuel)%nat self)
  in
  more StateMachine.transition
  /\ more StateMachine.delete_file
  /\ more StateMachine.delete_file_directory
  /\ more StateMachine.skip
  /\ more StateMachine.skip_directory
  /\ more StateMachine.advance
  /\ more StateMachine.print_help.
Proof.
  cbv zeta.
  induction fuel as [|fuel (Ht & Hd & HD & Hs & HS & Ha & Hh)].
  - repeat split; intros self; apply extends_overflow.
  - rewrite Nat.add_succ_r. revert Ht Hd HD Hs HS Ha Hh.
    generalize (k + fuel)%nat. intros fuel' Ht Hd HD Hs HS Ha Hh.
    repeat split; intros self.
    + cbn [StateMachine.transition].
      apply extends_bind; [apply extends_refl|intros e].
      apply extends_bind;
        [destruct (negb e); [apply Ha|apply extends_refl]|intros self1].
      apply extends_bind; [apply extends_refl|intros ign].
      apply extends_bind;
        [destruct (StateMachine.contains _ _); [apply Ha|apply extends_refl]
        |intros self2].
      apply extends_bind; [apply extends_refl|intros choice].
      destruct (StateMachine.get _ _) as [[| | | |]|]; auto.
    + cbn [StateMachine.delete_file].
      apply extends_bind; [apply extends_refl|intros _; apply Ha].
    + cbn [StateMachine.delete_file_directory].
      apply extends_bind; [apply extends_refl|intros _; apply Ha].
    + cbn [StateMachine.skip]. apply Ha.
    + cbn [StateMachine.skip_directory].
      apply extends_bind; [apply extends_refl|intros _; apply Ha].
    + cbn [StateMachine.advance].
      destruct (StateMachine.index (current_file self) (files self)) as [i|];
        [|apply extends_refl].
      cbv zeta.
      destruct (List.length (files self) <=? S i)%nat; [apply extends_refl|].
      destruct (nth_error (files self) (S i)); [apply Ht|apply extends_refl].
    + cbn [StateMachine.print_help].
      apply extends_bind; [apply extends_refl|intros _; apply Ht].
Qed.

Lemma transition_more_frames (k fuel : nat) (self : StateMachine)
      (p : process) :
  overflowed (StateMachine.transition fuel self p) = false ->
  StateMachine.transition (k + fuel) self p
  = StateMachine.transition fuel self p.
Proof.
  intros H. destruct (proj1 (methods_extend k fuel) self p) as [Ho|He];
    [congruence|exact He].
Qed.

Lemma dispatch_more_frames (k fuel : nat) (self : StateMachine)
      (tok : string) (p : process) :
  overflowed (dispatch fuel self tok p) = false ->
  dispatch (k + fuel) self tok p = dispatch fuel self tok p.
Proof.
  unfold dispatch. intros H.
  destruct (methods_extend k fuel) as (Ht & Hd & HD & Hs & HS & _ & Hh).
  destruct (StateMachine.get tok StateMachine.actions) as [[| | | |]|];
    match goal with
    | |- ?m (k + fuel)%nat self p = _ =>
        match goal with
        | Hm : forall s, extends (m fuel s) _ |- _ =>
            destruct (Hm self p) as [Ho|He]; [congruence|exact He]
        end
    end.
Qed.

(** What a run does with frames enough, it does whenever it does not
    exhaust the stack. *)
Lemma transition_settled (frames : nat) (self : StateMachine) (p : process)
      (r : result StateMachine) :
  (forall fuel, (frames <= fuel)%nat ->
                StateMachine.transition fuel self p = r) ->
  forall fuel,
    overflowed (StateMachine.transition fuel self p) = false ->
    StateMachine.transition fuel self p = r.
Proof.
  intros Hr fuel Ho.
  rewrite <- (transition_more_frames frames fuel self p Ho).
  apply Hr. lia.
Qed.

(** ** The streams across a deletion *)



(** ** The frames of a session *)

Lemma transition_fresh (fuel : nat) (self : StateMachine) (p : process) :
  fresh (current_file self) p = true ->
  StateMachine.transition (S fuel) self p
  = (choice <- StateMachine.prompt self ;; dispatch fuel self choice) p.
Proof.
  intros Hf. unfold fresh in Hf. apply andb_prop in Hf as [He Hi].
  apply negb_true_iff in Hi.
  change (StateMachine.transition (S fuel) self p)
    with ((e <- os.exists_ (path (current_file self)) ;;
           self1 <- (if negb e then StateMachine.advance fuel self
                     else ret self) ;;
           ign <- gets directories_to_ignore ;;
           self2 <- (if StateMachine.contains (directory (current_file self1)) ign
                     then StateMachine.advance fuel self1 else ret self1) ;;
           choice <- StateMachine.prompt self2 ;;
           dispatch fuel self2 choice) p).
  unfold os.exists_ at 1. unfold bind at 1. unfold gets at 1.
  unfold bind at 1. unfold ret at 1.
  destruct (lookup (disk p) (path (current_file self))); [|discriminate].
  cbn [negb]. unfold bind at 1. unfold ret at 1.
  unfold bind at 1. unfold gets at 1. rewrite Hi.
  unfold bind at 1. unfold ret at 1. reflexivity.
Qed.

Lemma unresolved_cases (es : entries) (q : Path) :
  os.unresolved es q = FileNotFoundError
  \/ os.unresolved es q = NotADirectoryError.
Proof.
  revert es. induction q as [|x q IH]; intros es; cbn [os.unresolved].
  - now left.
  - destruct (assoc x es) as [[i|sub]|]; [now right|apply IH|now left].
Qed.

Lemma prompt_eof (self : StateMachine) (p : process) :
  stdin p = [] ->
  exists (e : exn) (p' : process),
    StateMachine.prompt self p = Raise e p' /\ e <> RecursionError.
Proof.
  intros Hin.
  unfold StateMachine.prompt, File.print_as_tree, bind, print, modify, gets,
    input, raise.
  simpl.
  destruct (lookup (disk p) (directory (current_file self))) as [[i|es]|].
  - eexists _, _. split; [reflexivity|discriminate].
  - simpl. rewrite Hin. eexists _, _. split; [reflexivity|discriminate].
  - eexists _, _. split; [reflexivity|].
    destruct (unresolved_cases (disk p) (directory (current_file self)))
      as [-> | ->]; discriminate.
Qed.

Lemma index_middle (done todo : list File) (cur : File) :
  NoDup (map oid (done ++ cur :: todo)) ->
  StateMachine.index cur (done ++ cur :: todo) = Some (List.length done).
Proof.
  induction done as [|d done IH]; simpl; intros Hn.
  - now rewrite Nat.eqb_refl.
  - inversion Hn as [|? ? Hnotin Hn']; subst.
    destruct (Nat.eqb_spec (oid d) (oid cur)) as [E|E].
    + exfalso. apply Hnotin. rewrite E, map_app. apply in_or_app. right.
      now left.
    + now rewrite IH.
Qed.

Lemma nth_error_middle {A} (done todo : list A) (cur next : A) :
  nth_error (done ++ cur :: next :: todo) (S (List.length done)) = Some next.
Proof. induction done as [|d done IH]; simpl; [reflexivity|exact IH]. Qed.

(** [s] on a record that is not the last: three frames down, [transition]
    starts on the next record. *)
Lemma skip_to_next (fuel : nat) (done todo : list File) (cur next : File)
      (p : process) :
  NoDup (map oid (done ++ cur :: next :: todo)) ->
  StateMachine.skip (S (S fuel))
    (mkStateMachine (done ++ cur :: next :: todo) cur) p
  = StateMachine.transition fuel
      (mkStateMachine ((done ++ [cur]) ++ next :: todo) next) p.
Proof.
  intros Hn.
  change (StateMachine.skip (S (S fuel))
            (mkStateMachine (done ++ cur :: next :: todo) cur) p)
    with (StateMachine.advance (S fuel)
            (mkStateMachine (done ++ cur :: next :: todo) cur) p).
  cbn [StateMachine.advance files current_file].
  rewrite (index_middle done (next :: todo) cur Hn).
  replace (List.length (done ++ cur :: next :: todo) <=? S (List.length done))%nat
    with false.
  2:{ symmetry. apply Nat.leb_gt. rewrite length_app. simpl. lia. }
  rewrite nth_error_middle. rewrite <- app_assoc. reflexivity.
Qed.

Lemma skip_at_end (fuel : nat) (done : list File) (cur : File) (p : process) :
  NoDup (map oid (done ++ [cur])) ->
  StateMachine.skip (S (S fuel)) (mkStateMachine (done ++ [cur]) cur) p
  = Ok (mkStateMachine (done ++ [cur]) cur) p.
Proof.
  intros Hn.
  change (StateMachine.skip (S (S fuel)) (mkStateMachine (done ++ [cur]) cur) p)
    with (StateMachine.advance (S fuel) (mkStateMachine (done ++ [cur]) cur) p).
  apply advance_at_last. unfold at_last. cbn [files current_file].
  rewrite (index_middle done [] cur Hn). apply Nat.leb_le.
  rewrite length_app. simpl. lia.
Qed.

(** The frames of the seven methods that a session of skips and re-prompts
    needs. *)
Lemma frames_exact (toks : list string) :
  forall (fuel : nat) (done todo : list File) (cur : File) (p : process),
    NoDup (map oid (done ++ cur :: todo)) ->
    Forall (fun f => fresh f p && listable f p = true) (cur :: todo) ->
    forallb harmless toks = true ->
    stdin p = toks ->
    ((fuel < frames_needed (S (List.length todo)) toks)%nat ->
     exists p', StateMachine.transition fuel
                  (mkStateMachine (done ++ cur :: todo) cur) p
                = Raise RecursionError p')
    /\ ((frames_needed (S (List.length todo)) toks <= fuel)%nat ->
        forall p', StateMachine.transition fuel
                     (mkStateMachine (done ++ cur :: todo) cur) p
                   <> Raise RecursionError p').
Proof.
  induction toks as [|tok rest IH]; intros fuel done todo cur p Hn Hall Hh Hin.
  - (* standard input is at its end *)
    simpl. split.
    + intros Hlt. assert (fuel = O) by lia. subst. now eexists.
    + intros Hle p'. destruct fuel as [|fuel]; [lia|].
      inversion Hall as [|? ? Hc _]; subst. apply andb_prop in Hc as [Hf Hl].
      rewrite transition_fresh by exact Hf.
      destruct (prompt_eof (mkStateMachine (done ++ cur :: todo) cur) p Hin)
        as (e & p0 & Hp & He).
      rewrite (bind_Raise _ _ _ _ _ Hp). congruence.
  - simpl in Hh. apply andb_prop in Hh as [Hht Hh].
    pose proof Hall as Hall0.
    inversion Hall as [|? ? Hc Htodo]; subst. apply andb_prop in Hc as [Hf Hl].
    assert (Hstep : forall f,
               StateMachine.transition (S f)
                 (mkStateMachine (done ++ cur :: todo) cur) p
               = dispatch f (mkStateMachine (done ++ cur :: todo) cur) tok
                          (prompted cur rest p)).
    { intros f. rewrite transition_fresh by exact Hf.
      now rewrite (bind_Ok _ _ _ _ _
             (prompt_listable (mkStateMachine (done ++ cur :: todo) cur)
                              p tok rest Hl Hin)). }
    unfold harmless in Hht. unfold dispatch in Hstep.
    cbn [frames_needed].
    destruct (StateMachine.get tok StateMachine.actions) as [a|] eqn:Eg.
    + destruct a; try discriminate.
      * (* s *)
        pose proof (proj1 (get_skip tok) Eg) as Es. rewrite Es.
        destruct fuel as [|[|[|fuel]]].
        -- split; [intros _; now eexists|].
           destruct todo; simpl; lia.
        -- split; [intros _; rewrite Hstep; now eexists|].
           destruct todo; simpl; lia.
        -- split; [intros _; rewrite Hstep; now eexists|].
           destruct todo; simpl; lia.
        -- rewrite Hstep. destruct todo as [|next todo].
           ++ split; [simpl; lia|]. intros _ p'.
              rewrite skip_at_end by exact Hn. discriminate.
           ++ rewrite skip_to_next by exact Hn.
              assert (Hn' : NoDup (map oid ((done ++ [cur]) ++ next :: todo)))
                by now rewrite <- app_assoc.
              destruct (IH fuel (done ++ [cur]) todo next (prompted cur rest p)
                           Hn' Htodo Hh eq_refl) as [IH1 IH2].
              cbn [List.length]. split; intros Hc.
              ** apply IH1. lia.
              ** apply IH2. lia.
      * (* ? *)
        pose proof (proj1 (get_help tok) Eg) as Eh. rewrite Eh.
        assert (Es : String.eqb tok "s" = false).
        { destruct (String.eqb tok "s") eqn:E; [|reflexivity].
          apply get_skip in E. congruence. }
        rewrite Es.
        destruct fuel as [|[|fuel]].
        -- split; [intros _; now eexists|lia].
        -- split; [intros _; rewrite Hstep; now eexists|lia].
        -- rewrite Hstep, print_help_step.
           destruct (IH fuel done todo cur
                        (with_stdout (stdout (prompted cur rest p)
                                        ++ [Out_help_menu])
                                     (prompted cur rest p))
                        Hn Hall0 Hh eq_refl) as [IH1 IH2].
           split; intros Hc; [apply IH1|apply IH2]; lia.
    + (* an unknown token *)
      assert (Es : String.eqb tok "s" = false).
      { destruct (String.eqb tok "s") eqn:E; [|reflexivity].
        apply get_skip in E. congruence. }
      assert (Eh : String.eqb tok "?" = false).
      { destruct (String.eqb tok "?") eqn:E; [|reflexivity].
        apply get_help in E. congruence. }
      rewrite Es, Eh.
      destruct fuel as [|fuel].
      * split; [intros _; now eexists|lia].
      * rewrite Hstep.
        destruct (IH fuel done todo cur (prompted cur rest p)
                     Hn Hall0 Hh eq_refl) as [IH1 IH2].
        split; intros Hc; [apply IH1|apply IH2]; lia.
Qed.

(** C7, as the code has it.  The control flow is recursive, not a loop:
    every unknown token costs one frame, every [?] two, every skipped
    record three, and none is given back before the session ends.  A session
    over fresh records that is fed skips, [?] and unknown tokens raises
    [RecursionError] whenever it is granted fewer frames than
    [frames_needed] counts.  The frames of each prompt come on top of those,
    so the count is a lower bound; some number of frames, not below it, is
    enough. *)
Theorem session_frames_grow_with_reprompts
        (fuel : nat) (done todo : list File) (cur : File) (p : process) :
  NoDup (map oid (done ++ cur :: todo)) ->
  Forall (fun f => fresh f p && listable f p = true) (cur :: todo) ->
  forallb harmless (stdin p) = true ->
  ((fuel < frames_needed (S (List.length todo)) (stdin p))%nat ->
   exists p', StateMachine.transition fuel
                (mkStateMachine (done ++ cur :: todo) cur) p
              = Raise RecursionError p')
  /\ (exists frames : nat,
        (frames_needed (S (List.length todo)) (stdin p) <= frames)%nat
        /\ forall fuel' : nat,
            (frames <= fuel')%nat ->
            overflowed (StateMachine.transition fuel'
                          (mkStateMachine (done ++ cur :: todo) cur) p)
            = false).
Proof.
  intros Hn Hall Hh.
  split.
  - exact (proj1 (frames_exact (stdin p) fuel done todo cur p
                               Hn Hall Hh eq_refl)).
  - exists (frames_needed (S (List.length todo)) (stdin p)).
    split; [apply Nat.le_refl|].
    intros fuel' Hle. apply overflowed_false.
    exact (proj2 (frames_exact (stdin p) fuel' done todo cur p
                               Hn Hall Hh eq_refl) Hle).
Qed.

(** C7 on a run: two unknown tokens and a skip need five frames and those
    of the prompts, and four do not do. *)
Lemma session_frames_grow_with_reprompts_witness :
  exists p', StateMachine.transition 4
               (mkStateMachine [Scenario.A] Scenario.A)
               (Scenario.boot Scenario.disk_x ["zz"; "q"; "s"]%string)
             = Raise RecursionError p'.
Proof.
  apply (proj1 (session_frames_grow_with_reprompts
                  4 [] [] Scenario.A
                  (Scenario.boot Scenario.disk_x ["zz"; "q"; "s"]%string)
                  ltac:(repeat constructor; simpl; tauto)
                  ltac:(repeat constructor)
                  eq_refl)).
  simpl. lia.
Defined.

Lemma frames_needed_unknown (n : nat) :
  frames_needed 1 (repeat "zz"%string n ++ ["s"%string]) = (n + 3)%nat
  /\ forallb harmless (repeat "zz"%string n ++ ["s"%string]) = true.
Proof.
  induction n as [|n [IH1 IH2]]; [split; reflexivity|].
  split.
  - change (frames_needed 1 (repeat "zz"%string (S n) ++ ["s"%string]))
      with (S (frames_needed 1 (repeat "zz"%string n ++ ["s"%string]))).
    rewrite IH1. reflexivity.
  - change (forallb harmless (repeat "zz"%string (S n) ++ ["s"%string]))
      with (forallb harmless (repeat "zz"%string n ++ ["s"%string])).
    exact IH2.
Qed.

(** C7, counterexample.  No number of frames is enough for every number of
    re-prompts: on the one-record catalog [/x/a], whatever the bound, as
    many unknown tokens followed by [s] end in [RecursionError], and with
    the 1000 frames of the interpreter's default, 1000 unknown tokens do;
    while a single [s] on that catalog returns once the frames are
    enough. *)
Lemma reprompts_exhaust_any_stack :
  (~ exists bound : nat, forall (n : nat) (p' : process),
        StateMachine.transition bound
          (mkStateMachine [Scenario.A] Scenario.A)
          (Scenario.boot Scenario.disk_x (repeat "zz"%string n ++ ["s"%string]))
        <> Raise RecursionError p')
  /\ (exists p', StateMachine.transition 1000
                   (mkStateMachine [Scenario.A] Scenario.A)
                   (Scenario.boot Scenario.disk_x
                      (repeat "zz"%string 1000 ++ ["s"%string]))
                 = Raise RecursionError p')
  /\ (exists (frames : nat) (p' : process),
        forall fuel : nat,
          (frames <= fuel)%nat ->
          StateMachine.transition fuel
            (mkStateMachine [Scenario.A] Scenario.A)
            (Scenario.boot Scenario.disk_x ["s"%string])
          = Ok (mkStateMachine [Scenario.A] Scenario.A) p').
Proof.
  assert (Hrun : forall n, exists p',
             StateMachine.transition n
               (mkStateMachine [Scenario.A] Scenario.A)
               (Scenario.boot Scenario.disk_x
                  (repeat "zz"%string n ++ ["s"%string]))
             = Raise RecursionError p').
  { intros n. destruct (frames_needed_unknown n) as [Hf Hh].
    apply (proj1 (frames_exact (repeat "zz"%string n ++ ["s"%string])
                    n [] [] Scenario.A
                    (Scenario.boot Scenario.disk_x
                       (repeat "zz"%string n ++ ["s"%string]))
                    ltac:(repeat constructor; simpl; tauto)
                    ltac:(repeat constructor)
                    Hh eq_refl)).
    cbn [List.length]. rewrite Hf. lia. }
  split; [|split].
  - intros [bound H]. destruct (Hrun bound) as [p' Hp']. exact (H bound p' Hp').
  - apply Hrun.
  - exists 3%nat. eexists. intros fuel Hle.
    replace fuel with ((fuel - 3) + 3)%nat by lia.
    rewrite transition_more_frames; reflexivity.
Qed.

(** ** Tokens that are no action *)

Lemma prompt_at_eof (self : StateMachine) (p : process) :
  listable (current_file self) p = true ->
  stdin p = [] ->
  StateMachine.prompt self p
  = Raise EOFError
          (with_stdout (stdout p ++ prompt_output (current_file self)) p).
Proof.
  unfold listable, StateMachine.prompt, File.print_as_tree.
  intros Hl Hin.
  unfold bind, print, modify, gets, input. simpl.
  destruct (lookup (disk p) (directory (current_file self))) as [[|es]|];
    try discriminate.
  simpl. rewrite Hin. unfold with_stdout, prompt_output. simpl.
  repeat rewrite <- app_assoc. reflexivity.
Qed.

(** On a record that is fresh, or is the last one, and whose directory can
    be listed, [transition] with two frames or more is its prompt and its
    dispatch. *)
Lemma transition_reprompts (fuel : nat) (self : StateMachine) (p : process) :
  fresh (current_file self) p || at_last self = true ->
  listable (current_file self) p = true ->
  StateMachine.transition (S (S fuel)) self p = reprompted (S fuel) self p.
Proof.
  intros Hs Hl. rewrite transition_unfold.
  rewrite (bind_Ok _ _ _ _ _ (settle_again fuel self p Hs)).
  unfold reprompted. destruct (stdin p) as [|tok rest] eqn:Hin.
  - apply bind_Raise. now apply prompt_at_eof.
  - apply bind_Ok. now apply prompt_listable.
Qed.

(** C6, as the code has it.  Let [transition] have reached its prompt, on
    the session [self2] in the process [p2], and have read there a token
    other than [d], [D], [s], [S]: the help token [?] or an unknown one.
    The run is then the dispatch of that token.  It leaves the disk and the
    ignored directories as they are and writes at most the help menu, and,
    unless it exhausts the stack, it prompts once more for the record of the
    same session, so with the cursor where it was: frames enough for that
    exist, and every run that does not end with [RecursionError] does it. *)
Theorem help_or_unknown_token_reprompts_same_record
        (fuel : nat) (self self2 : StateMachine) (p p2 p3 : process)
        (tok : string) :
  settle fuel self p = Ok self2 p2 ->
  StateMachine.prompt self2 p2 = Ok tok p3 ->
  advancing tok = false ->
  let p' := if String.eqb tok "?"
            then with_stdout (stdout p3 ++ [Out_help_menu]) p3 else p3 in
  StateMachine.transition (S fuel) self p = dispatch fuel self2 tok p3
  /\ disk p' = disk p2
  /\ directories_to_ignore p' = directories_to_ignore p2
  /\ (exists frames : nat,
        forall g : nat,
          (frames <= g)%nat ->
          exists g' : nat, dispatch g self2 tok p3 = reprompted g' self2 p')
  /\ (forall g : nat,
        overflowed (dispatch g self2 tok p3) = false ->
        exists g' : nat, dispatch g self2 tok p3 = reprompted g' self2 p').
Proof.
  intros Hsettle Hprompt Hadv p'.
  destruct (prompt_inv self2 p2 p3 tok Hprompt) as (rest & Hin & Hl & ->).
  pose proof (settle_settled _ _ _ _ _ Hsettle) as Hs.
  assert (Hs' : fresh (current_file self2) p' || at_last self2 = true).
  { subst p'. destruct (String.eqb tok "?"); exact Hs. }
  assert (Hl' : listable (current_file self2) p' = true).
  { subst p'. destruct (String.eqb tok "?"); exact Hl. }
  assert (Henough : forall g : nat,
             (3 <= g)%nat ->
             exists g' : nat,
               dispatch g self2 tok (prompted (current_file self2) rest p2)
               = reprompted g' self2 p').
  { intros g Hg. destruct g as [|[|[|g]]]; try lia.
    unfold dispatch, advancing in *.
    destruct (StateMachine.get tok StateMachine.actions) as [a|] eqn:Eg.
    - destruct a; try discriminate.
      apply get_help in Eg. subst p'. rewrite Eg in *.
      rewrite print_help_step. exists (S g).
      now apply transition_reprompts.
    - assert (Eh : String.eqb tok "?" = false).
      { destruct (String.eqb tok "?") eqn:Eh; [|reflexivity].
        apply get_help in Eh. congruence. }
      subst p'. rewrite Eh in *. exists (S (S g)).
      now apply transition_reprompts. }
  split; [exact (transition_after_prompt _ _ _ _ _ _ _ Hsettle Hprompt)|].
  split. { subst p'. destruct (String.eqb tok "?"); reflexivity. }
  split. { subst p'. destruct (String.eqb tok "?"); reflexivity. }
  split; [exists 3%nat; exact Henough|].
  intros g Ho. rewrite <- (dispatch_more_frames 3 g _ _ _ Ho).
  apply Henough. lia.
Qed.

(** C6 on a run: [/x/a] is asked about, [zz] is read, and the session asks
    about [/x/a] again, where it reads [s]. *)
Lemma help_or_unknown_token_reprompts_same_record_witness :
  exists g' : nat,
    dispatch 999 (mkStateMachine [Scenario.A; Scenario.B] Scenario.A) "zz"
             (prompted Scenario.A ["s"; "s"]%string
                (Scenario.boot Scenario.disk_x ["zz"; "s"; "s"]%string))
    = dispatch g' (mkStateMachine [Scenario.A; Scenario.B] Scenario.A) "s"
        (prompted Scenario.A ["s"%string]
           (prompted Scenario.A ["s"; "s"]%string
              (Scenario.boot Scenario.disk_x ["zz"; "s"; "s"]%string))).
Proof.
  exact (proj2 (proj2 (proj2 (proj2
    (help_or_unknown_token_reprompts_same_record
       999 (mkStateMachine [Scenario.A; Scenario.B] Scenario.A)
       (mkStateMachine [Scenario.A; Scenario.B] Scenario.A)
       (Scenario.boot Scenario.disk_x ["zz"; "s"; "s"]%string)
       (Scenario.boot Scenario.disk_x ["zz"; "s"; "s"]%string)
       (prompted Scenario.A ["s"; "s"]%string
          (Scenario.boot Scenario.disk_x ["zz"; "s"; "s"]%string))
       "zz"%string
       eq_refl eq_refl eq_refl)))) 999%nat ltac:(vm_compute; reflexivity)).
Defined.

(** C6, counterexample.  The session over [/x/a] has the 1000 frames of the
    interpreter's default and 1001 unknown tokens to read.  It reads some of
    them and ends with [RecursionError] before it has read them all: the
    token it read last was not followed by another prompt and another
    token. *)
Lemma reprompt_needs_frames :
  exists p' : process,
    StateMachine.transition 1000
      (mkStateMachine [Scenario.A] Scenario.A)
      (Scenario.boot Scenario.disk_x (repeat "zz"%string 1001))
    = Raise RecursionError p'
    /\ (0 < List.length (stdin p') < 1001)%nat
    /\ disk p' = Scenario.disk_x.
Proof.
  eexists. split; [vm_compute; reflexivity|].
  split; [|reflexivity]. cbn [stdin List.length]. lia.
Qed.

(** ** Deletions that fail *)





(** ** Records that are already resolved *)

(** C1, on runs.  The session over [/x/a] and [/x/b] reads [S] for the
    first, which puts [/x] on the ignored list.  The second is then in an
    ignored directory, and the session still writes its tree and reads a
    token for it: the [advance] in [transition] returns and [transition]
    goes on to its prompt.  After [D] instead of [S] the second record is
    gone from the disk, and the session still starts on its tree and ends
    with [FileNotFoundError]. *)
Theorem resolved_record_is_prompted :
  StateMachine.transition 1000
    (mkStateMachine [Scenario.A; Scenario.B] Scenario.A)
    (Scenario.boot Scenario.disk_x ["S"; "s"]%string)
  = Ok (mkStateMachine [Scenario.A; Scenario.B] Scenario.B)
       (mkProcess Scenario.disk_x 0 [] [["x"%string]] 0 []
                  (prompt_output Scenario.A ++ prompt_output Scenario.B))
  /\ StateMachine.transition 1000
       (mkStateMachine [Scenario.A; Scenario.B] Scenario.A)
       (Scenario.boot Scenario.disk_x ["D"]%string)
     = Raise FileNotFoundError
         (mkProcess [] 0 [] [] 0 []
                    (prompt_output Scenario.A
                       ++ [Out_absolute_path (path Scenario.B);
                           Out_tree_root (directory Scenario.B)])).
Proof.
  split; vm_compute; reflexivity.
Qed.

(** ** What every statement of the script preserves *)

Create HintDb frame.

Section Frame.

Variable R : process -> process -> Prop.
Hypothesis R_refl : forall p, R p p.
Hypothesis R_trans : forall p q r, R p q -> R q r -> R p r.
Hypothesis R_disk : forall d p, R p (with_disk d p).
Hypothesis R_next_oid : forall n p, R p (with_next_oid n p).
Hypothesis R_stdin : forall l p, R p (with_stdin l p).
Hypothesis R_stdout : forall l p, R p (with_stdout l p).
Hypothesis R_File_files :
  forall f p, R p (with_File_files (File_files p ++ [f]) p).
Hypothesis R_directories_to_ignore :
  forall d p,
    R p (with_directories_to_ignore (directories_to_ignore p ++ [d]) p).

Lemma preserves_ret {A} (a : A) : preserves R (ret a).
Proof. intros p. apply R_refl. Qed.

Lemma preserves_raise {A} (e : exn) : preserves R (@raise A e).
Proof. intros p. apply R_refl. Qed.

Lemma preserves_gets {A} (f : process -> A) : preserves R (gets f).
Proof. intros p. apply R_refl. Qed.

Lemma preserves_modify (f : process -> process) :
  (forall p, R p (f p)) -> preserves R (modify f).
Proof. intros H p. apply H. Qed.

Lemma preserves_bind {A B} (m : M A) (k : A -> M B) :
  preserves R m -> (forall a, preserves R (k a)) -> preserves R (bind m k).
Proof.
  intros Hm Hk p. unfold bind. specialize (Hm p).
  destruct (m p) as [a p'|e p']; simpl in *.
  - eapply R_trans; [exact Hm|apply Hk].
  - exact Hm.
Qed.

#[local] Hint Resolve preserves_ret preserves_raise preserves_gets : frame.

Ltac frame :=
  repeat match goal with
         | |- preserves _ (bind _ _) => apply preserves_bind; [|intros]
         | |- preserves _ (modify _) => apply preserves_modify; intros
         | |- preserves _ (match ?x with _ => _ end) => destruct x
         | |- preserves _ (if ?x then _ else _) => destruct x
         | _ => progress auto with frame
         end.

Lemma preserves_print (o : output) : preserves R (print o).
Proof. unfold print. frame. Qed.

Lemma preserves_input : preserves R input.
Proof.
  intros p. unfold input. destruct (stdin p); simpl; [apply R_refl|apply R_stdin].
Qed.

Lemma preserves_exists (q : Path) : preserves R (os.exists_ q).
Proof. unfold os.exists_. frame. Qed.

Lemma preserves_isdir (q : Path) : preserves R (os.isdir q).
Proof. unfold os.isdir. frame. Qed.

Lemma preserves_stat (q : Path) : preserves R (os.stat q).
Proof. unfold os.stat. frame. Qed.

#[local] Hint Resolve preserves_print preserves_input preserves_exists
  preserves_isdir preserves_stat : frame.

Lemma preserves_getsize (q : Path) : preserves R (os.getsize q).
Proof. unfold os.getsize. frame. Qed.

Lemma preserves_remove (q : Path) : preserves R (os.remove q).
Proof. unfold os.remove. frame. Qed.

Lemma preserves_rmtree (q : Path) : preserves R (shutil.rmtree q).
Proof.
  unfold shutil.rmtree. apply preserves_bind; [frame|]. intros es.
  destruct (lookup es q) as [[i|sub]|]; [frame| |frame].
  generalize (rmtree_node (Dir sub)). intros [[i|rem]|]; destruct q; frame.
Qed.

Lemma preserves_glob (q : Path) : preserves R (glob.glob q).
Proof. unfold glob.glob. frame. Qed.

Lemma preserves_File_init (q : Path) (size age : Z) :
  preserves R (File.__init__ q size age).
Proof.
  unfold File.__init__, File.convert_to_human_readable_size. frame.
Qed.

Lemma preserves_files_by_size : preserves R File.files_by_size.
Proof. unfold File.files_by_size, File.files. frame. Qed.

Lemma preserves_files_by_age : preserves R File.files_by_age.
Proof. unfold File.files_by_age, File.files. frame. Qed.

Lemma preserves_print_as_tree (f : File) : preserves R (File.print_as_tree f).
Proof. unfold File.print_as_tree. frame. Qed.

#[local] Hint Resolve preserves_getsize preserves_remove preserves_rmtree
  preserves_glob preserves_File_init preserves_files_by_size
  preserves_files_by_age preserves_print_as_tree : frame.

Lemma preserves_prompt (self : StateMachine) :
  preserves R (StateMachine.prompt self).
Proof. unfold StateMachine.prompt. frame. Qed.

Lemma preserves_StateMachine_init (l : list File) :
  preserves R (StateMachine.__init__ l).
Proof. unfold StateMachine.__init__. frame. Qed.

#[local] Hint Resolve preserves_prompt preserves_StateMachine_init : frame.

(** The seven methods, together, by induction on the frames. *)
Lemma preserves_methods (fuel : nat) :
  (forall self, preserves R (StateMachine.transition fuel self))
  /\ (forall self, preserves R (StateMachine.delete_file fuel self))
  /\ (forall self, preserves R (StateMachine.delete_file_directory fuel self))
  /\ (forall self, preserves R (StateMachine.skip fuel self))
  /\ (forall self, preserves R (StateMachine.skip_directory fuel self))
  /\ (forall self, preserves R (StateMachine.advance fuel self))
  /\ (forall self, preserves R (StateMachine.print_help fuel self)).
Proof.
  induction fuel as [|fuel (Ht & Hd & HD & Hs & HS & Ha & Hh)].
  - repeat split; intros self; apply preserves_raise.
  - repeat split; intros self.
    + cbn [StateMachine.transition]. unfold File.delete_file.
      frame.
    + cbn [StateMachine.delete_file]. unfold File.delete_file. frame.
    + cbn [StateMachine.delete_file_directory].
      unfold File.delete_file_directory. frame.
    + cbn [StateMachine.skip]. frame.
    + cbn [StateMachine.skip_directory]. frame.
    + cbn [StateMachine.advance]. frame.
    + cbn [StateMachine.print_help]. frame.
Qed.

Lemma preserves_transition (fuel : nat) (self : StateMachine) :
  preserves R (StateMachine.transition fuel self).
Proof. apply preserves_methods. Qed.

Lemma preserves_scan_paths (paths : list Path) : preserves R (scan_paths paths).
Proof.
  induction paths as [|q paths IH]; cbn [scan_paths]; unfold datetime_now; frame.
Qed.

Lemma preserves_scan (d : Path) : preserves R (scan d).
Proof.
  unfold scan. apply preserves_bind; [frame|]. intros. apply preserves_scan_paths.
Qed.

Lemma preserves_main (d : Path) (order_by : string) (fuel : nat) :
  preserves R (main d order_by fuel).
Proof.
  unfold main.
  apply preserves_bind; [apply preserves_scan|]. intros.
  apply preserves_bind; [frame|]. intros.
  apply preserves_bind; [frame|]. intros.
  apply preserves_transition.
Qed.

End Frame.

(** ** The two class attributes *)

Lemma prefix_refl {A} (l : list A) : prefix l l.
Proof. exists []. now rewrite app_nil_r. Qed.

Lemma prefix_trans {A} (l1 l2 l3 : list A) :
  prefix l1 l2 -> prefix l2 l3 -> prefix l1 l3.
Proof.
  intros [a ->] [b ->]. exists (a ++ b). now rewrite app_assoc.
Qed.

Lemma prefix_app {A} (l a : list A) : prefix l (l ++ a).
Proof. now exists a. Qed.

Lemma prefix_incl {A} (l1 l2 : list A) : prefix l1 l2 -> incl l1 l2.
Proof. intros [a ->] x Hx. apply in_or_app. now left. Qed.

Lemma ignored_grow_transition (fuel : nat) (self : StateMachine) :
  preserves ignored_grow (StateMachine.transition fuel self).
Proof.
  apply preserves_transition; unfold ignored_grow; intros; simpl;
    eauto using prefix_refl, prefix_trans, prefix_app.
Qed.

Lemma files_grow_scan (d : Path) : preserves files_grow (scan d).
Proof.
  apply preserves_scan; unfold files_grow; intros; simpl;
    eauto using prefix_refl, prefix_trans, prefix_app.
Qed.

Lemma files_grow_main (d : Path) (order_by : string) (fuel : nat) :
  preserves files_grow (main d order_by fuel).
Proof.
  apply preserves_main; unfold files_grow; intros; simpl;
    eauto using prefix_refl, prefix_trans, prefix_app.
Qed.

(** C9, as the code has it.  [directories_to_ignore] is one list of the
    process, not of a session.  Whatever a session does, and however it
    ends, the list it leaves starts with the list it found: [S] appends and
    nothing removes.  Constructing a session does not touch the list, so a
    later session of the same process starts with all that the earlier ones
    appended. *)
Theorem ignored_directories_grow_and_are_shared
        (fuel : nat) (self : StateMachine) (p : process) (l : list File) :
  let p1 := final (StateMachine.transition fuel self p) in
  prefix (directories_to_ignore p) (directories_to_ignore p1)
  /\ directories_to_ignore (final (StateMachine.__init__ l p1))
     = directories_to_ignore p1
  /\ (forall fuel' self',
        StateMachine.skip_directory (S fuel') self' p
        = StateMachine.advance fuel' self'
            (with_directories_to_ignore
               (directories_to_ignore p ++ [directory (current_file self')]) p)).
Proof.
  intros p1. split; [apply ignored_grow_transition|].
  split; [|reflexivity].
  destruct l; reflexivity.
Qed.

(** C9, counterexample.  In one process, a first session over [/x/a] reads
    [S].  A second session, over [/x/b] and [/y/c], does not start with an
    empty list: it finds [/x] ignored, and the first tree it writes is that
    of [/y/c]. *)
Lemma second_session_sees_ignored_directory :
  exists (p1 p2 : process) (s2 : StateMachine),
    StateMachine.transition 1000 (mkStateMachine [Scenario.A] Scenario.A)
      (Scenario.boot Scenario.disk_xy ["S"; "s"; "s"]%string)
    = Ok (mkStateMachine [Scenario.A] Scenario.A) p1
    /\ StateMachine.__init__ [Scenario.B; Scenario.C] p1
       = Ok (mkStateMachine [Scenario.B; Scenario.C] Scenario.B) p1
    /\ directories_to_ignore p1 = [["x"%string]]
    /\ directories_to_ignore p1 <> []
    /\ StateMachine.transition 1000
         (mkStateMachine [Scenario.B; Scenario.C] Scenario.B) p1
       = Ok s2 p2
    /\ stdout p2 = stdout p1 ++ prompt_output Scenario.C
                             ++ prompt_output Scenario.C.
Proof.
  eexists _, _, _.
  split; [vm_compute; reflexivity|].
  split; [reflexivity|].
  split; [reflexivity|].
  split; [discriminate|].
  split; [vm_compute; reflexivity|].
  reflexivity.
Qed.

(** C10.  Every [File] that is constructed is appended to the one list
    [File.files] of the process; [files_by_size] and [files_by_age] rank
    that whole list: what they return holds every instance of it once, in
    non-decreasing order of size and in non-increasing order of age; so
    after two scans in one process the catalog, in either order, holds the
    records of the first scan as well. *)
Theorem File_files_is_process_wide
        (p p1 p2 : process) (d1 d2 q : Path) (size age : Z) (f : File)
        (p' : process) :
  File.__init__ q size age p = Ok f p' ->
  scan d1 p = Ok tt p1 ->
  scan d2 p1 = Ok tt p2 ->
  File_files p' = File_files p ++ [f]
  /\ File.files_by_size p2 = Ok (sorted size_in_bytes (File_files p2) false) p2
  /\ File.files_by_age p2 = Ok (sorted age_in_days (File_files p2) true) p2
  /\ prefix (File_files p1) (File_files p2)
  /\ incl (File_files p1) (sorted size_in_bytes (File_files p2) false)
  /\ incl (File_files p1) (sorted age_in_days (File_files p2) true)
  /\ (exists by_size by_age : list File,
        File.files_by_size p2 = Ok by_size p2
        /\ File.files_by_age p2 = Ok by_age p2
        /\ Permutation (File_files p2) by_size
        /\ Permutation (File_files p2) by_age
        /\ StronglySorted
             (fun a b => size_in_bytes a <= size_in_bytes b) by_size
        /\ StronglySorted
             (fun a b => age_in_days b <= age_in_days a) by_age).
Proof.
  intros Hinit H1 H2.
  assert (Hpre : prefix (File_files p1) (File_files p2)).
  { pose proof (files_grow_scan d2 p1) as H. rewrite H2 in H. exact H. }
  split.
  { revert Hinit.
    unfold File.__init__, File.convert_to_human_readable_size, bind, gets,
      modify, ret, raise.
    simpl.
    destruct (size =? 0); [intros [= <- <-]; reflexivity|].
    destruct (size <? 0); [discriminate|].
    destruct (9 <=? Z.log2 size / 10); [discriminate|].
    intros [= <- <-]. reflexivity. }
  split; [reflexivity|]. split; [reflexivity|]. split; [exact Hpre|].
  split.
  { intros x Hx. apply prefix_incl in Hpre.
    eapply Permutation_in; [apply sorted_perm|]. now apply Hpre. }
  split.
  { intros x Hx. apply prefix_incl in Hpre.
    eapply Permutation_in; [apply sorted_perm|]. now apply Hpre. }
  exists (sorted size_in_bytes (File_files p2) false),
         (sorted age_in_days (File_files p2) true).
  split; [reflexivity|]. split; [reflexivity|].
  split; [apply sorted_perm|]. split; [apply sorted_perm|].
  split; [apply sort_sorted|].
  unfold sorted.
  apply (StronglySorted_rev (fun a b => age_in_days a <= age_in_days b)).
  apply sort_sorted.
Qed.

(** C10 on a run: [/x] is scanned, then [/y]; the catalog by age of the
    second scan holds [/x/a] and [/x/b] of the first. *)
Lemma File_files_is_process_wide_witness :
  File_files (final (scan ["x"%string] (Scenario.boot Scenario.disk_xy [])))
  = [Scenario.A; Scenario.B]
  /\ incl [Scenario.A; Scenario.B]
          (sorted age_in_days
             (File_files
                (final (scan ["y"%string]
                   (final (scan ["x"%string]
                             (Scenario.boot Scenario.disk_xy []))))))
             true).
Proof.
  split; [reflexivity|].
  exact (proj1 (proj2 (proj2 (proj2 (proj2 (proj2
    (File_files_is_process_wide
       (Scenario.boot Scenario.disk_xy [])
       (final (scan ["x"%string] (Scenario.boot Scenario.disk_xy [])))
       (final (scan ["y"%string]
                 (final (scan ["x"%string]
                           (Scenario.boot Scenario.disk_xy [])))))
       ["x"%string] ["y"%string] ["x"; "a"]%string 5 0 Scenario.A
       (final (File.__init__ ["x"; "a"]%string 5 0
                             (Scenario.boot Scenario.disk_xy [])))
       eq_refl eq_refl eq_refl))))))).
Defined.

(** ** The scan *)

(** C5, as the code has it.  The root holds no character that glob reads
    as a pattern.  When it does not exist, or is no directory, the scan
    raises nothing: glob yields no path, no [File] is constructed and the
    process is as before.  With an empty [File.files] [main] then fails
    where it constructs the session, with the [IndexError] of [files[0]]. *)
Theorem scan_of_missing_root_is_silent
        (p : process) (d : Path) (order_by : string) (fuel : nat) :
  glob.literal d = true ->
  (lookup (disk p) d = None \/ exists i, lookup (disk p) d = Some (Leaf i)) ->
  scan d p = Ok tt p
  /\ (File_files p = [] ->
      order_by = "age"%string \/ order_by = "size"%string ->
      main d order_by fuel p = Raise IndexError p).
Proof.
  intros _ Hroot.
  assert (Hscan : scan d p = Ok tt p).
  { unfold scan, glob.glob, bind, gets, ret.
    destruct Hroot as [->|[i ->]]; reflexivity. }
  split; [exact Hscan|].
  intros Hnil Horder. unfold main.
  rewrite (bind_Ok _ _ _ _ _ Hscan).
  destruct Horder as [->| ->]; cbn [String.eqb Ascii.eqb Bool.eqb];
    unfold File.files_by_age, File.files_by_size, File.files, bind, gets, ret;
    rewrite Hnil; reflexivity.
Qed.

(** C5 on a run: [/nope] does not exist. *)
Lemma scan_of_missing_root_is_silent_witness :
  main ["nope"%string] "size" 1000 (Scenario.boot Scenario.disk_x [])
  = Raise IndexError (Scenario.boot Scenario.disk_x []).
Proof.
  exact (proj2 (scan_of_missing_root_is_silent
                  (Scenario.boot Scenario.disk_x []) ["nope"%string]
                  "size" 1000 eq_refl (or_introl eq_refl))
               eq_refl (or_intror eq_refl)).
Defined.

(** C5, counterexample.  [/nope] does not exist, and the scan of it returns
    with an empty catalog instead of failing with [ScanError]. *)
Lemma scan_of_missing_root_no_ScanError :
  lookup Scenario.disk_x ["nope"%string] = None
  /\ scan ["nope"%string] (Scenario.boot Scenario.disk_x [])
     = Ok tt (Scenario.boot Scenario.disk_x [])
  /\ File_files (Scenario.boot Scenario.disk_x []) = []
  /\ forall p', scan ["nope"%string] (Scenario.boot Scenario.disk_x [])
                <> Raise ScanError p'.
Proof.
  split; [reflexivity|]. split; [reflexivity|]. split; [reflexivity|].
  intros p'. discriminate.
Qed.

(** *** Lookups on a well-formed disk *)

Lemma assoc_In (x : string) (es : entries) (c : node) :
  assoc x es = Some c -> In (x, c) es.
Proof.
  induction es as [|[y n] es IH]; simpl; [discriminate|].
  destruct (String.eqb_spec y x) as [->|Hne].
  - intros [= ->]. now left.
  - intros H. right. now apply IH.
Qed.

Lemma In_assoc (x : string) (es : entries) (c : node) :
  NoDup (map fst es) -> In (x, c) es -> assoc x es = Some c.
Proof.
  induction es as [|[y n] es IH]; simpl; [tauto|].
  intros Hn [H|H].
  - injection H as -> ->. now rewrite String.eqb_refl.
  - inversion Hn as [|? ? Hnotin Hn']; subst.
    destruct (String.eqb_spec y x) as [->|Hne].
    + exfalso. apply Hnotin. change x with (fst (x, c)). now apply in_map.
    + now apply IH.
Qed.

Lemma assoc_names (x : string) (es : entries) :
  In x (map fst es) -> exists c, assoc x es = Some c.
Proof.
  induction es as [|[y n] es IH]; simpl; [tauto|].
  destruct (String.eqb_spec y x) as [->|Hne].
  - intros _. now exists n.
  - intros [H|H]; [contradiction|]. now apply IH.
Qed.

Lemma unique_NoDup (l : list string) : unique l = true -> NoDup l.
Proof.
  induction l as [|x l IH]; cbn [unique]; intros H; constructor.
  - apply andb_prop in H as [H _]. apply negb_true_iff in H.
    intros Hin. assert (existsb (String.eqb x) l = true); [|congruence].
    apply existsb_exists. exists x. split; [exact Hin|apply String.eqb_refl].
  - apply andb_prop in H as [_ H]. now apply IH.
Qed.

Lemma well_formed_Dir (es : entries) :
  well_formed (Dir es) = true ->
  NoDup (map fst es)
  /\ forall x c, In (x, c) es -> well_formed c = true.
Proof.
  cbn [well_formed]. intros H. apply andb_prop in H as [Hn Hall]. split.
  - now apply unique_NoDup.
  - intros x c Hin. rewrite forallb_forall in Hall. exact (Hall (x, c) Hin).
Qed.

Lemma well_formed_lookup (q : Path) :
  forall (es : entries) (n : node),
    well_formed (Dir es) = true -> lookup es q = Some n ->
    well_formed n = true.
Proof.
  induction q as [|x q IH]; intros es n Hwf; cbn [lookup].
  - now intros [= <-].
  - destruct (assoc x es) as [[i|sub]|] eqn:Ea; [| |discriminate].
    + destruct q; [|discriminate]. intros [= <-].
      apply well_formed_Dir in Hwf as [_ Hall].
      exact (Hall x (Leaf i) (assoc_In _ _ _ Ea)).
    + apply IH. apply well_formed_Dir in Hwf as [_ Hall].
      exact (Hall x (Dir sub) (assoc_In _ _ _ Ea)).
Qed.

Lemma lookup_app (d : Path) :
  forall (es sub : entries) (rel : Path),
    lookup es d = Some (Dir sub) -> lookup es (d ++ rel) = lookup sub rel.
Proof.
  induction d as [|x d IH]; intros es sub rel; cbn [lookup app].
  - now intros [= ->].
  - destruct (assoc x es) as [[i|s]|]; [| |discriminate].
    + destruct d; discriminate.
    + apply IH.
Qed.

Lemma lookup_app_none (d : Path) :
  forall (es : entries) (rel : Path),
    (lookup es d = None \/ exists i, lookup es d = Some (Leaf i)) ->
    rel <> [] -> lookup es (d ++ rel) = None.
Proof.
  induction d as [|x d IH]; intros es rel H Hrel; cbn [lookup app] in *.
  - destruct H as [H|[i H]]; discriminate.
  - destruct (assoc x es) as [[i|s]|]; [| |reflexivity].
    + destruct d; cbn [app]; [|reflexivity].
      destruct rel; [contradiction|reflexivity].
    + now apply IH.
Qed.

(** *** What glob matches *)

Lemma glob_below_cases (es : entries) (rel : Path) :
  In rel (glob_below (Dir es))
  <-> (exists x, rel = [x] /\ ishidden x = false /\ In x (map fst es))
      \/ (exists x c r, rel = x :: r /\ ishidden x = false
                        /\ In (x, c) es /\ In r (glob_below c)).
Proof.
  cbn [glob_below]. rewrite in_app_iff, in_map_iff, in_flat_map. split.
  - intros [(x & <- & Hx)|([x c] & Hin & Hr)].
    + apply filter_In in Hx as [Hx Hv]. apply negb_true_iff in Hv.
      left. now exists x.
    + cbn [fst snd] in Hr. destruct (ishidden x) eqn:Eh; [contradiction|].
      apply in_map_iff in Hr as (r & <- & Hr).
      right. now exists x, c, r.
  - intros [(x & -> & Hv & Hx)|(x & c & r & -> & Hv & Hin & Hr)].
    + left. exists x. split; [reflexivity|]. apply filter_In. split; [exact Hx|].
      now rewrite Hv.
    + right. exists (x, c). split; [exact Hin|]. cbn [fst snd]. rewrite Hv.
      now apply in_map.
Qed.

Lemma glob_below_nonempty (n : node) (rel : Path) :
  In rel (glob_below n) -> rel <> [].
Proof.
  destruct n as [i|es]; [contradiction|].
  intros H. apply glob_below_cases in H.
  destruct H as [(x & -> & _)|(x & c & r & -> & _)]; discriminate.
Qed.

(** On a well-formed disk glob matches the visible paths that exist. *)
Lemma glob_below_In (rel : Path) :
  forall es : entries,
    well_formed (Dir es) = true ->
    In rel (glob_below (Dir es))
    <-> rel <> [] /\ visible rel = true /\ exists m, lookup es rel = Some m.
Proof.
  induction rel as [|x r IH]; intros es Hwf.
  - split.
    + intros H. now apply glob_below_nonempty in H.
    + intros [H _]. contradiction.
  - destruct (well_formed_Dir es Hwf) as [Hnd Hall].
    rewrite glob_below_cases. cbn [visible forallb lookup]. split.
    + intros [(y & [= -> ->] & Hv & Hx)|(y & c & r' & [= -> ->] & Hv & Hin & Hr)].
      * split; [discriminate|]. split; [now rewrite Hv|].
        destruct (assoc_names _ _ Hx) as [c ->].
        destruct c as [i|sub]; [now exists (Leaf i)|now exists (Dir sub)].
      * split; [discriminate|].
        rewrite (In_assoc _ _ _ Hnd Hin).
        destruct c as [i|sub]; [contradiction|].
        apply (IH sub (Hall _ _ Hin)) in Hr as (Hne & Hvr & Hm).
        fold (visible r'). now rewrite Hv, Hvr.
    + intros (_ & Hv & m & Hm). apply andb_prop in Hv as [Hvx Hvr].
      apply negb_true_iff in Hvx.
      destruct (assoc x es) as [c|] eqn:Ea; [|discriminate].
      pose proof (assoc_In _ _ _ Ea) as Hin.
      destruct r as [|y r'].
      * left. exists x. split; [reflexivity|]. split; [exact Hvx|].
        change x with (fst (x, c)). now apply in_map.
      * right. destruct c as [i|sub]; [discriminate|].
        exists x, (Dir sub), (y :: r'). split; [reflexivity|].
        split; [exact Hvx|]. split; [exact Hin|].
        apply (IH sub (Hall _ _ Hin)). split; [discriminate|]. eauto.
Qed.

(** Induction on a node, with the children of a directory. *)
Lemma node_induction (P : node -> Prop) :
  (forall i, P (Leaf i)) ->
  (forall es, Forall (fun xc : string * node => P (snd xc)) es -> P (Dir es)) ->
  forall n, P n.
Proof.
  intros HL HD.
  fix rec 1. intros [i|es].
  - apply HL.
  - apply HD. induction es as [|xc es IH]; constructor.
    + apply rec.
    + exact IH.
Qed.

Lemma glob_below_NoDup (n : node) :
  well_formed n = true -> NoDup (glob_below n).
Proof.
  induction n as [i|es IHes] using node_induction; [constructor|].
  intros Hwf. destruct (well_formed_Dir es Hwf) as [Hnd Hall].
  cbn [glob_below]. apply NoDup_app.
  - apply Injective_map_NoDup; [now intros a b [= ->]|].
    now apply NoDup_filter.
  - clear Hwf. induction es as [|[x c] es IH]; [constructor|].
    cbn [flat_map fst snd]. apply Forall_cons_iff in IHes as [Hc IHes'].
    cbn [map fst snd] in Hnd, Hc. apply NoDup_cons_iff in Hnd as [Hnotin Hnd'].
    apply NoDup_app.
    + destruct (ishidden x); [constructor|].
      apply Injective_map_NoDup; [now intros a b [= ->]|].
      apply Hc. apply (Hall x c). now left.
    + apply IH; [exact IHes'|exact Hnd'|].
      intros y c' Hin. apply (Hall y c'). now right.
    + intros rel H1 H2. destruct (ishidden x); [contradiction|].
      apply in_map_iff in H1 as (r & <- & _).
      apply in_flat_map in H2 as ([y c'] & Hin & Hr). cbn [fst snd] in Hr.
      destruct (ishidden y); [contradiction|].
      apply in_map_iff in Hr as (r' & [= -> ->] & _).
      apply Hnotin. change x with (fst (x, c')). now apply in_map.
  - intros rel H1 H2. apply in_map_iff in H1 as (x & <- & _).
    apply in_flat_map in H2 as ([y c] & Hin & Hr). cbn [fst snd] in Hr.
    destruct (ishidden y); [contradiction|].
    apply in_map_iff in Hr as (r & [= -> ->] & Hr).
    now apply glob_below_nonempty in Hr.
Qed.

(** *** The loop over the paths *)

Lemma File_init_ok (q : Path) (size age : Z) (p : process) :
  0 <= size < 2 ^ 63 ->
  File.__init__ q size age p
  = Ok (mkFile (next_oid p) size q (os.dirname q) age)
       (with_File_files
          (File_files p ++ [mkFile (next_oid p) size q (os.dirname q) age])
          (with_next_oid (S (next_oid p)) p)).
Proof.
  intros Hsize.
  unfold File.__init__, File.convert_to_human_readable_size, bind, gets,
    modify, ret, raise, File.determine_directory.
  cbn beta iota.
  destruct (Z.eqb_spec size 0) as [->|Hnz]; [reflexivity|].
  destruct (Z.ltb_spec size 0) as [Hneg|_]; [lia|].
  assert (Hlog : Z.log2 size < 63) by (apply Z.log2_lt_pow2; lia).
  assert (Hdiv : Z.log2 size / 10 < 9)
    by (apply Z.div_lt_upper_bound; lia).
  destruct (Z.leb_spec 9 (Z.log2 size / 10)) as [Hbig|_]; [lia|].
  reflexivity.
Qed.

Lemma scan_paths_spec (paths : list Path) :
  forall p : process,
    (forall q, In q paths ->
               match lookup (disk p) q with
               | Some (Leaf i) => 0 <= st_size i < 2 ^ 63
               | Some (Dir _) => True
               | None => False
               end) ->
    exists new : list File,
      scan_paths paths p
      = Ok tt (with_File_files (File_files p ++ new)
                 (with_next_oid (next_oid p + List.length new) p))
      /\ map path new
         = filter (fun q => negb (is_directory (disk p) q)) paths.
Proof.
  induction paths as [|q paths IH]; intros p Hpaths.
  - exists []. split; [|reflexivity].
    destruct p. unfold with_File_files, with_next_oid. cbn.
    now rewrite app_nil_r, Nat.add_0_r.
  - pose proof (Hpaths q (or_introl eq_refl)) as Hq.
    assert (Hrest : forall q', In q' paths ->
               match lookup (disk p) q' with
               | Some (Leaf i) => 0 <= st_size i < 2 ^ 63
               | Some (Dir _) => True
               | None => False
               end) by (intros q' Hin; apply Hpaths; now right).
    cbn [scan_paths filter]. unfold is_directory at 1.
    unfold os.isdir at 1, os.getsize, os.stat, datetime_now.
    unfold bind at 1. unfold bind at 1. unfold gets at 1. unfold ret at 1.
    destruct (lookup (disk p) q) as [[i|sub]|] eqn:Eq; [| |contradiction].
    + cbn [negb].
      unfold bind at 1. unfold bind at 1. unfold bind at 1.
      unfold gets at 1. rewrite Eq. unfold ret at 1. unfold ret at 1.
      unfold bind at 1. unfold bind at 1. unfold gets at 1. rewrite Eq.
      unfold ret at 1. unfold bind at 1. unfold gets at 1.
      unfold bind at 1.
      rewrite (File_init_ok q (st_size i)
                 (timedelta_days (clock p) (st_ctime i)) p Hq).
      set (f := mkFile (next_oid p) (st_size i) q (os.dirname q)
                       (timedelta_days (clock p) (st_ctime i))).
      set (p1 := with_File_files (File_files p ++ [f])
                   (with_next_oid (S (next_oid p)) p)).
      destruct (IH p1 Hrest) as (new & Hscan & Hmap).
      exists (f :: new). split.
      * rewrite Hscan. f_equal. subst p1. destruct p.
        unfold with_File_files, with_next_oid. cbn.
        rewrite <- app_assoc. cbn. now rewrite Nat.add_succ_r.
      * cbn [map path]. now rewrite Hmap.
    + cbn [negb]. apply IH. exact Hrest.
Qed.

(** C8, as the code has it.  On a disk whose directories list each name
    once, the scan of a root [d] that holds no character glob reads as a
    pattern returns, and appends to [File.files] exactly one record for
    every entry below [d] that is no directory and is reached through names
    that do not begin with a dot; it appends nothing else, and no record for
    a directory. *)
Theorem scan_emits_visible_non_directories (p : process) (d : Path) :
  glob.literal d = true ->
  well_formed (Dir (disk p)) = true ->
  exists new : list File,
    scan d p = Ok tt (with_File_files (File_files p ++ new)
                        (with_next_oid (next_oid p + List.length new) p))
    /\ NoDup (map path new)
    /\ (forall q : Path,
          In q (map path new)
          <-> exists rel i, q = d ++ rel /\ rel <> [] /\ visible rel = true
                            /\ lookup (disk p) q = Some (Leaf i))
    /\ (forall f, In f new -> is_directory (disk p) (path f) = false).
Proof.
  intros _ Hwf.
  assert (Hglob : glob.glob d p
                  = Ok (match lookup (disk p) d with
                        | Some n => map (app d) (glob_below n)
                        | None => []
                        end) p) by reflexivity.
  set (paths := match lookup (disk p) d with
                | Some n => map (app d) (glob_below n)
                | None => []
                end) in *.
  (* what glob returned, path by path *)
  assert (Hpaths : forall q, In q paths
             <-> exists rel m, q = d ++ rel /\ rel <> [] /\ visible rel = true
                               /\ lookup (disk p) q = Some m).
  { intros q. subst paths.
    destruct (lookup (disk p) d) as [[i|sub]|] eqn:Ed.
    - split; [contradiction|]. intros (rel & m & -> & Hne & _ & Hm).
      rewrite (lookup_app_none d (disk p) rel) in Hm; [discriminate| |exact Hne].
      right. now exists i.
    - rewrite in_map_iff. split.
      + intros (rel & <- & Hin).
        apply (glob_below_In rel sub (well_formed_lookup d _ _ Hwf Ed)) in Hin
          as (Hne & Hv & m & Hm).
        exists rel, m. rewrite (lookup_app d _ sub rel Ed). auto.
      + intros (rel & m & -> & Hne & Hv & Hm). exists rel. split; [reflexivity|].
        apply (glob_below_In rel sub (well_formed_lookup d _ _ Hwf Ed)).
        rewrite (lookup_app d _ sub rel Ed) in Hm. eauto.
    - split; [contradiction|]. intros (rel & m & -> & Hne & _ & Hm).
      rewrite (lookup_app_none d (disk p) rel) in Hm; [discriminate| |exact Hne].
      now left. }
  assert (Hnodup : NoDup paths).
  { subst paths. destruct (lookup (disk p) d) as [n|] eqn:Ed; [|constructor].
    apply Injective_map_NoDup.
    - intros a b H. now apply app_inv_head in H.
    - apply glob_below_NoDup. exact (well_formed_lookup d _ _ Hwf Ed). }
  destruct (scan_paths_spec paths p) as (new & Hscan & Hmap).
  { intros q Hq. apply Hpaths in Hq as (rel & m & _ & _ & _ & Hm).
    rewrite Hm. destruct m as [i|sub]; [|exact I].
    pose proof (well_formed_lookup q _ _ Hwf Hm) as Hi.
    cbn [well_formed] in Hi. apply andb_prop in Hi as [H0 H63]. lia. }
  exists new.
  split. { unfold scan. now rewrite (bind_Ok _ _ _ _ _ Hglob). }
  split. { rewrite Hmap. now apply NoDup_filter. }
  assert (Hchar : forall q : Path,
             In q (map path new)
             <-> exists rel i, q = d ++ rel /\ rel <> [] /\ visible rel = true
                               /\ lookup (disk p) q = Some (Leaf i)).
  { intros q. rewrite Hmap, filter_In, Hpaths. unfold is_directory. split.
    - intros [(rel & m & Hq & Hne & Hv & Hm) Hnd]. rewrite Hm in Hnd.
      destruct m as [i|sub]; [|discriminate]. now exists rel, i.
    - intros (rel & i & Hq & Hne & Hv & Hm). rewrite Hm.
      split; [|reflexivity]. now exists rel, (Leaf i). }
  split; [exact Hchar|].
  intros f Hf.
  assert (Hin : In (path f) (map path new)) by now apply in_map.
  apply Hchar in Hin as (rel & i & _ & _ & _ & Hm).
  unfold is_directory. now rewrite Hm.
Qed.

(** C8 on a run: below [/r] there are [.hidden], [seen] and
    [.git/config]; the scan makes one record, for [/r/seen]. *)
Lemma scan_emits_visible_non_directories_witness :
  exists new : list File,
    scan ["r"%string] (Scenario.boot Scenario.disk_hidden [])
    = Ok tt (with_File_files (new)
               (with_next_oid (List.length new)
                  (Scenario.boot Scenario.disk_hidden [])))
    /\ NoDup (map path new).
Proof.
  destruct (scan_emits_visible_non_directories
              (Scenario.boot Scenario.disk_hidden []) ["r"%string]
              eq_refl eq_refl)
    as (new & Hscan & Hnodup & _).
  exists new. split; [exact Hscan|exact Hnodup].
Defined.

(** C8, counterexample.  [/r/.hidden] is a regular file below [/r], and so
    is [/r/.git/config]; the scan of [/r] makes a record for neither. *)
Lemma scan_skips_hidden_files :
  exists p' : process,
    scan ["r"%string] (Scenario.boot Scenario.disk_hidden []) = Ok tt p'
    /\ lookup Scenario.disk_hidden [ "r"; ".hidden" ]%string
       = Some (Scenario.regular 7)
    /\ lookup Scenario.disk_hidden [ "r"; ".git"; "config" ]%string
       = Some (Scenario.regular 9)
    /\ map path (File_files p') = [ ["r"; "seen"]%string ]
    /\ ~ In [ "r"; ".hidden" ]%string (map path (File_files p'))
    /\ ~ In [ "r"; ".git"; "config" ]%string (map path (File_files p')).
Proof.
  eexists. split; [vm_compute; reflexivity|].
  split; [reflexivity|]. split; [reflexivity|]. split; [reflexivity|].
  split; simpl; intros [H|[]]; discriminate H.
Qed.

(* ================================================================= *)
(** * Further properties of the session *)

Lemma returns_bind_with {A B} (P : A -> Prop) (Q : B -> Prop)
      (m : M A) (k : A -> M B) :
  returns P m -> (forall a, P a -> returns Q (k a)) -> returns Q (bind m k).
Proof.
  intros Hm Hk p b p'. unfold bind.
  destruct (m p) as [a p1|e p1] eqn:Em; [|discriminate].
  apply (Hk a (Hm _ _ _ Em)).
Qed.

Lemma returns_ret {A} (Q : A -> Prop) (a : A) : Q a -> returns Q (ret a).
Proof. intros H p b p' [= <- _]. exact H. Qed.

(** None of the seven methods returns another catalog than its own. *)
Lemma methods_keep_catalog (fuel : nat) :
  (forall self, returns (fun s => files s = files self)
                        (StateMachine.transition fuel self))
  /\ (forall self, returns (fun s => files s = files self)
                           (StateMachine.delete_file fuel self))
  /\ (forall self, returns (fun s => files s = files self)
                           (StateMachine.delete_file_directory fuel self))
  /\ (forall self, returns (fun s => files s = files self)
                           (StateMachine.skip fuel self))
  /\ (forall self, returns (fun s => files s = files self)
                           (StateMachine.skip_directory fuel self))
  /\ (forall self, returns (fun s => files s = files self)
                           (StateMachine.advance fuel self))
  /\ (forall self, returns (fun s => files s = files self)
                           (StateMachine.print_help fuel self)).
Proof.
  induction fuel as [|fuel (Ht & Hd & HD & Hs & HS & Ha & Hh)].
  - repeat split; intros self; apply returns_raise.
  - repeat split; intros self.
    + cbn [StateMachine.transition].
      apply returns_bind; intros e.
      apply (returns_bind_with (fun s => files s = files self)).
      { destruct (negb e); [apply Ha|now apply returns_ret]. }
      intros self1 H1. apply returns_bind; intros ign.
      apply (returns_bind_with (fun s => files s = files self)).
      { destruct (StateMachine.contains _ _).
        - rewrite <- H1. apply Ha.
        - now apply returns_ret. }
      intros self2 H2. apply returns_bind; intros choice.
      rewrite <- H2.
      destruct (StateMachine.get _ _) as [[| | | |]|]; auto.
    + cbn [StateMachine.delete_file]. apply returns_bind; intros. apply Ha.
    + cbn [StateMachine.delete_file_directory]. apply returns_bind; intros.
      apply Ha.
    + cbn [StateMachine.skip]. apply Ha.
    + cbn [StateMachine.skip_directory]. apply returns_bind; intros. apply Ha.
    + cbn [StateMachine.advance].
      destruct (StateMachine.index (current_file self) (files self))
        as [i|]; [|apply returns_raise].
      cbv zeta.
      destruct (List.length (files self) <=? S i)%nat.
      * now apply returns_ret.
      * destruct (nth_error (files self) (S i)) as [f|];
          [|apply returns_raise].
        exact (Ht (mkStateMachine (files self) f)).
    + cbn [StateMachine.print_help]. apply returns_bind; intros. apply Ht.
Qed.

Lemma index_lt (x : File) (l : list File) (i : nat) :
  StateMachine.index x l = Some i -> (i < List.length l)%nat.
Proof.
  revert i. induction l as [|y l IH]; intros i; cbn [StateMachine.index].
  - discriminate.
  - destruct (Nat.eqb (oid y) (oid x)).
    + intros [= <-]. simpl. lia.
    + destruct (StateMachine.index x l) as [j|]; [|discriminate].
      intros [= <-]. specialize (IH j eq_refl). simpl. lia.
Qed.

(** X1.  When [transition] or [advance] returns, the session still has the
    catalog it was given, in the same order, and its cursor is on the last
    record of it: a session never returns from the middle of its catalog. *)
Theorem session_returns_at_end_of_same_catalog
        (fuel : nat) (self self' : StateMachine) (p p' : process) :
  StateMachine.transition fuel self p = Ok self' p'
  \/ StateMachine.advance fuel self p = Ok self' p' ->
  files self' = files self
  /\ at_last self' = true
  /\ StateMachine.index (current_file self') (files self)
     = Some (Nat.pred (List.length (files self))).
Proof.
  intros H.
  assert (Hf : files self' = files self).
  { destruct H as [H|H].
    - exact (proj1 (methods_keep_catalog fuel) self _ _ _ H).
    - exact (proj1 (proj2 (proj2 (proj2 (proj2 (proj2
               (methods_keep_catalog fuel)))))) self _ _ _ H). }
  assert (Hl : at_last self' = true).
  { destruct H as [H|H].
    - exact (proj1 (methods_return_at_last fuel) self _ _ _ H).
    - exact (advance_returns_at_last _ _ _ _ _ H). }
  split; [exact Hf|]. split; [exact Hl|].
  unfold at_last in Hl. rewrite Hf in Hl.
  destruct (StateMachine.index (current_file self') (files self))
    as [i|] eqn:Ei; [|discriminate].
  apply Nat.leb_le in Hl.
  pose proof (index_lt _ _ _ Ei) as Hi.
  f_equal. lia.
Qed.

(** X1 on a run: both records are skipped. *)
Lemma session_returns_at_end_of_same_catalog_witness :
  at_last (mkStateMachine [Scenario.A; Scenario.B] Scenario.B) = true.
Proof.
  refine (proj1 (proj2
    (session_returns_at_end_of_same_catalog
       6 (mkStateMachine [Scenario.A; Scenario.B] Scenario.A)
       (mkStateMachine [Scenario.A; Scenario.B] Scenario.B)
       (Scenario.boot Scenario.disk_x ["s"; "s"]%string)
       (with_stdin []
          (with_stdout (prompt_output Scenario.A ++ prompt_output Scenario.B)
             (Scenario.boot Scenario.disk_x ["s"; "s"]%string)))
       _))).
  left. reflexivity.
Defined.

(** *** Tokens that change nothing *)

Lemma undisturbed_refl (p : process) : undisturbed p p.
Proof. repeat split; auto. Qed.

Lemma undisturbed_trans (p q r : process) :
  undisturbed p q -> undisturbed q r -> undisturbed p r.
Proof.
  intros (Hd & Hi & Hs) (Hd' & Hi' & Hs'). repeat split.
  - now rewrite Hd'.
  - now rewrite Hi'.
  - auto.
Qed.

Lemma final_bind {A B} (m : M A) (k : A -> M B) (p : process) :
  final (bind m k p)
  = match m p with
    | Ok a p1 => final (k a p1)
    | Raise _ p1 => p1
    end.
Proof. unfold bind. now destruct (m p). Qed.

Lemma prompt_undisturbed (self : StateMachine) (p : process) :
  undisturbed p (final (StateMachine.prompt self p)).
Proof.
  unfold StateMachine.prompt, File.print_as_tree, bind, print, modify, gets,
    input, raise.
  cbn.
  destruct (lookup (disk p) (directory (current_file self))) as [[i|es]|];
    cbn; try (repeat split; auto; fail).
  destruct (stdin p) as [|tok rest] eqn:Ein; cbn; repeat split; auto.
  rewrite Ein. cbn [forallb]. intros H. now apply andb_prop in H.
Qed.

(** With only harmless tokens to read, the methods a harmless token can
    reach leave the disk and the ignored directories alone. *)
Lemma harmless_methods (fuel : nat) :
  (forall self p, forallb harmless (stdin p) = true ->
                  undisturbed p (final (StateMachine.transition fuel self p)))
  /\ (forall self p, forallb harmless (stdin p) = true ->
                     undisturbed p (final (StateMachine.skip fuel self p)))
  /\ (forall self p, forallb harmless (stdin p) = true ->
                     undisturbed p (final (StateMachine.advance fuel self p)))
  /\ (forall self p, forallb harmless (stdin p) = true ->
                     undisturbed p (final (StateMachine.print_help fuel self p))).
Proof.
  induction fuel as [|fuel (Ht & Hs & Ha & Hh)].
  - split; [|split; [|split]]; intros; apply undisturbed_refl.
  - assert (Ha' : forall self p,
               forallb harmless (stdin p) = true ->
               undisturbed p (final (StateMachine.advance (S fuel) self p))).
    { intros self p Hp. cbn [StateMachine.advance].
      destruct (StateMachine.index (current_file self) (files self)) as [i|];
        [|apply undisturbed_refl].
      cbv zeta. destruct (List.length (files self) <=? S i)%nat;
        [apply undisturbed_refl|].
      destruct (nth_error (files self) (S i));
        [now apply Ht|apply undisturbed_refl]. }
    split; [|split; [|split]]; [|now apply Ha|exact Ha'|].
    + intros self p Hp. rewrite transition_unfold, final_bind.
      (* the two checks *)
      assert (Hsettle : undisturbed p (final (settle fuel self p))).
      { revert self p Hp.
        assert (Hgen : forall self p,
                   forallb harmless (stdin p) = true ->
                   undisturbed p (final (settle fuel self p))).
        { intros self p Hp. unfold settle.
          rewrite final_bind. unfold os.exists_ at 1. unfold bind at 1.
          unfold gets at 1. unfold ret at 1. rewrite final_bind.
          set (b := negb match lookup (disk p) (path (current_file self)) with
                         | Some _ => true | None => false end).
          assert (H1 : undisturbed p
                         (final ((if b then StateMachine.advance fuel self
                                  else ret self) p))).
          { destruct b; [now apply Ha|apply undisturbed_refl]. }
          destruct ((if b then StateMachine.advance fuel self else ret self) p)
            as [self1 p1|e p1]; cbn [final] in H1; [|exact H1].
          rewrite final_bind. unfold gets at 1.
          apply (undisturbed_trans _ _ _ H1).
          destruct (StateMachine.contains _ _); [|apply undisturbed_refl].
          apply Ha. now apply H1. }
        exact Hgen. }
      destruct (settle fuel self p) as [self2 p2|e p2]; cbn [final] in Hsettle;
        [|exact Hsettle].
      apply (undisturbed_trans _ _ _ Hsettle).
      assert (Hp2 : forallb harmless (stdin p2) = true) by now apply Hsettle.
      rewrite final_bind.
      pose proof (prompt_undisturbed self2 p2) as Hprompt.
      destruct (StateMachine.prompt self2 p2) as [tok p3|e p3] eqn:Ep;
        cbn [final] in Hprompt; [|exact Hprompt].
      apply (undisturbed_trans _ _ _ Hprompt).
      assert (Hp3 : forallb harmless (stdin p3) = true) by now apply Hprompt.
      destruct (prompt_inv _ _ _ _ Ep) as (rest & Hin & _ & _).
      rewrite Hin in Hp2. cbn [forallb] in Hp2.
      apply andb_prop in Hp2 as [Htok _].
      unfold harmless in Htok. unfold dispatch.
      destruct (StateMachine.get tok StateMachine.actions) as [[| | | |]|];
        try discriminate; auto.
    + intros self p Hp. cbn [StateMachine.print_help].
      rewrite final_bind. cbn.
      apply (undisturbed_trans _ (with_stdout (stdout p ++ [Out_help_menu]) p));
        [repeat split; auto|].
      now apply Ht.
Qed.

(** X2.  A session that has only [s], [?] and unknown tokens to read, as
    many as there may be, ends with the disk and the ignored directories it
    started with, however it ends. *)
Theorem harmless_tokens_change_nothing
        (fuel : nat) (self : StateMachine) (p : process) :
  forallb harmless (stdin p) = true ->
  disk (final (StateMachine.transition fuel self p)) = disk p
  /\ directories_to_ignore (final (StateMachine.transition fuel self p))
     = directories_to_ignore p.
Proof.
  intros Hp.
  destruct (proj1 (harmless_methods fuel) self p Hp) as (Hd & Hi & _).
  now split.
Qed.

(** X2 on a run: a skip, the help, an unknown token and a skip. *)
Lemma harmless_tokens_change_nothing_witness :
  disk (final (StateMachine.transition 20
                 (mkStateMachine [Scenario.A; Scenario.B] Scenario.A)
                 (Scenario.boot Scenario.disk_x ["s"; "?"; "zz"; "s"]%string)))
  = Scenario.disk_x.
Proof.
  exact (proj1 (harmless_tokens_change_nothing
                  20 (mkStateMachine [Scenario.A; Scenario.B] Scenario.A)
                  (Scenario.boot Scenario.disk_x ["s"; "?"; "zz"; "s"]%string)
                  eq_refl)).
Defined.

(** *** A session of skips *)

Lemma last_cons {A} (l : list A) (a d : A) : last (a :: l) d = last l a.
Proof.
  revert a d. induction l as [|b l IH]; intros a d; [reflexivity|].
  change (last (a :: b :: l) d) with (last (b :: l) d).
  now rewrite !IH.
Qed.

(** A session of skips, with three frames of the seven methods for each
    record. *)
Lemma skips_return (todo : list File) :
  forall (extra : nat) (done : list File) (cur : File) (p : process)
         (rest : list string),
    NoDup (map oid (done ++ cur :: todo)) ->
    Forall (fun f => fresh f p && listable f p = true) (cur :: todo) ->
    stdin p = repeat "s"%string (S (List.length todo)) ++ rest ->
    StateMachine.transition (3 * S (List.length todo) + extra)
      (mkStateMachine (done ++ cur :: todo) cur) p
    = Ok (mkStateMachine (done ++ cur :: todo) (last todo cur))
         (with_stdin rest
            (with_stdout (stdout p ++ flat_map prompt_output (cur :: todo)) p)).
Proof.
  induction todo as [|next todo IH]; intros extra done cur p rest Hn Hall Hin.
  - apply Forall_cons_iff in Hall as [Hc _]. apply andb_prop in Hc as [Hf Hl].
    cbn [List.length repeat app] in Hin.
    change (3 * S (List.length (@nil File)) + extra)%nat with (S (S (S extra))).
    rewrite transition_fresh by exact Hf.
    rewrite (bind_Ok _ _ _ _ _
               (prompt_listable (mkStateMachine (done ++ [cur]) cur)
                                p "s" rest Hl Hin)).
    change (dispatch (S (S extra)) (mkStateMachine (done ++ [cur]) cur) "s")
      with (StateMachine.skip (S (S extra)) (mkStateMachine (done ++ [cur]) cur)).
    rewrite skip_at_end by exact Hn.
    cbn [last flat_map]. unfold prompted. now rewrite app_nil_r.
  - pose proof Hall as Hall0.
    apply Forall_cons_iff in Hall as [Hc Htodo].
    apply andb_prop in Hc as [Hf Hl].
    cbn [List.length repeat app] in Hin.
    replace (3 * S (List.length (next :: todo)) + extra)%nat
      with (S (S (S (3 * S (List.length todo) + extra))))
      by (cbn [List.length]; lia).
    rewrite transition_fresh by exact Hf.
    rewrite (bind_Ok _ _ _ _ _
               (prompt_listable
                  (mkStateMachine (done ++ cur :: next :: todo) cur) p "s"
                  (repeat "s"%string (S (List.length todo)) ++ rest) Hl Hin)).
    change (dispatch (S (S (3 * S (List.length todo) + extra)))
              (mkStateMachine (done ++ cur :: next :: todo) cur) "s")
      with (StateMachine.skip (S (S (3 * S (List.length todo) + extra)))
              (mkStateMachine (done ++ cur :: next :: todo) cur)).
    rewrite skip_to_next by exact Hn.
    assert (Hn' : NoDup (map oid ((done ++ [cur]) ++ next :: todo)))
      by now rewrite <- app_assoc.
    cbn [current_file].
    rewrite (IH extra (done ++ [cur]) next
                (prompted cur (repeat "s"%string (S (List.length todo)) ++ rest) p)
                rest Hn' Htodo eq_refl).
    rewrite <- app_assoc. cbn [app]. rewrite last_cons.
    f_equal. unfold prompted, with_stdin, with_stdout. cbn.
    now rewrite <- app_assoc.
Qed.

(** X3.  Over records that are all fresh, given an [s] for each, the
    session writes the tree of every record once, in the order of the
    catalog and starting at the cursor, reads exactly those tokens and
    returns with the cursor on the last record: with frames enough, and
    whenever it does not exhaust the stack. *)
Theorem skipping_prompts_each_record_once (todo : list File) :
  forall (done : list File) (cur : File) (p : process) (rest : list string),
    NoDup (map oid (done ++ cur :: todo)) ->
    Forall (fun f => fresh f p && listable f p = true) (cur :: todo) ->
    stdin p = repeat "s"%string (S (List.length todo)) ++ rest ->
    let session := mkStateMachine (done ++ cur :: todo) cur in
    let outcome :=
        Ok (mkStateMachine (done ++ cur :: todo) (last todo cur))
           (with_stdin rest
              (with_stdout (stdout p ++ flat_map prompt_output (cur :: todo))
                           p)) in
    (exists frames : nat,
        forall fuel : nat,
          (frames <= fuel)%nat ->
          StateMachine.transition fuel session p = outcome)
    /\ (forall fuel : nat,
          overflowed (StateMachine.transition fuel session p) = false ->
          StateMachine.transition fuel session p = outcome).
Proof.
  intros done cur p rest Hn Hall Hin session outcome.
  assert (Henough : forall fuel : nat,
             (3 * S (List.length todo) <= fuel)%nat ->
             StateMachine.transition fuel session p = outcome).
  { intros fuel Hle.
    replace fuel
      with (3 * S (List.length todo) + (fuel - 3 * S (List.length todo)))%nat
      by lia.
    now apply skips_return. }
  split; [now exists (3 * S (List.length todo))%nat|].
  now apply (transition_settled (3 * S (List.length todo))).
Qed.

(** X3 on a run: [/x/a] and [/x/b], two skips, with the 1000 frames of the
    interpreter's default. *)
Lemma skipping_prompts_each_record_once_witness :
  StateMachine.transition 1000
    (mkStateMachine [Scenario.A; Scenario.B] Scenario.A)
    (Scenario.boot Scenario.disk_x ["s"; "s"; "d"]%string)
  = Ok (mkStateMachine [Scenario.A; Scenario.B] Scenario.B)
       (with_stdin ["d"%string]
          (with_stdout (prompt_output Scenario.A ++ prompt_output Scenario.B ++ [])
             (Scenario.boot Scenario.disk_x ["s"; "s"; "d"]%string))).
Proof.
  refine (proj2
            (skipping_prompts_each_record_once
               [Scenario.B] [] Scenario.A
               (Scenario.boot Scenario.disk_x ["s"; "s"; "d"]%string)
               ["d"%string] _ _ eq_refl)
            1000%nat _).
  - repeat constructor; simpl; intuition discriminate.
  - repeat constructor.
  - vm_compute. reflexivity.
Defined.

(* ================================================================= *)
(** * Further properties of [File] and [main] *)

(** X4.  [File(path, size, age)] for a size below [2^63]: a negative size
    raises [ValueError] from [math.log] before the instance is appended, so
    [File.files] is as it was; any other size returns an instance with that
    size, path and age, whose directory is the path without its last
    component, and which is the new last element of [File.files]. *)
Theorem File_init_outcome (q : Path) (size age : Z) (p : process) :
  size < 2 ^ 63 ->
  if size <? 0
  then File.__init__ q size age p
       = Raise ValueError (with_next_oid (S (next_oid p)) p)
       /\ File_files (final (File.__init__ q size age p)) = File_files p
  else exists f : File,
      File.__init__ q size age p
      = Ok f (with_File_files (File_files p ++ [f])
                (with_next_oid (S (next_oid p)) p))
      /\ size_in_bytes f = size /\ path f = q /\ age_in_days f = age
      /\ directory f = removelast q
      /\ oid f = next_oid p.
Proof.
  intros Hsize. destruct (Z.ltb_spec size 0) as [Hneg|Hpos].
  - unfold File.__init__, File.convert_to_human_readable_size, bind, gets,
      modify, ret, raise.
    cbn beta iota.
    destruct (Z.eqb_spec size 0) as [->|_]; [lia|].
    destruct (Z.ltb_spec size 0) as [_|?]; [|lia].
    split; reflexivity.
  - eexists. split; [apply File_init_ok; lia|]. repeat split.
Qed.

(** X4 on a run. *)
Lemma File_init_outcome_witness :
  File.__init__ ["x"; "a"]%string (-1) 0 (Scenario.boot Scenario.disk_x [])
  = Raise ValueError
          (with_next_oid 1 (Scenario.boot Scenario.disk_x [])).
Proof.
  exact (proj1 (File_init_outcome ["x"; "a"]%string (-1) 0
                  (Scenario.boot Scenario.disk_x []) eq_refl)).
Defined.

Lemma File_init_cases (q : Path) (size age : Z) (p : process) :
  File.__init__ q size age p
  = Ok (mkFile (next_oid p) size q (os.dirname q) age)
       (with_File_files
          (File_files p ++ [mkFile (next_oid p) size q (os.dirname q) age])
          (with_next_oid (S (next_oid p)) p))
  \/ exists e, File.__init__ q size age p
               = Raise e (with_next_oid (S (next_oid p)) p).
Proof.
  unfold File.__init__, File.convert_to_human_readable_size, bind, gets,
    modify, ret, raise, File.determine_directory.
  cbn beta iota.
  destruct (size =? 0); [now left|].
  destruct (size <? 0); [right; now eexists|].
  destruct (9 <=? Z.log2 size / 10); [right; now eexists|].
  now left.
Qed.

Lemma scan_paths_cons (q : Path) (paths : list Path) (p : process) :
  scan_paths (q :: paths) p
  = match lookup (disk p) q with
    | Some (Dir _) => scan_paths paths p
    | Some (Leaf i) =>
        match File.__init__ q (st_size i)
                (timedelta_days (clock p) (st_ctime i)) p with
        | Ok _ p1 => scan_paths paths p1
        | Raise e p1 => Raise e p1
        end
    | None => Raise (os.unresolved (disk p) q) p
    end.
Proof.
  cbn [scan_paths].
  unfold os.isdir at 1, os.getsize, os.stat, datetime_now.
  unfold bind at 1. unfold bind at 1. unfold gets at 1. unfold ret at 1.
  destruct (lookup (disk p) q) as [[i|sub]|] eqn:Eq.
  - unfold bind at 1. unfold bind at 1. unfold bind at 1.
    unfold gets at 1. rewrite Eq. unfold ret at 1. unfold ret at 1.
    unfold bind at 1. unfold bind at 1. unfold gets at 1. rewrite Eq.
    unfold ret at 1. unfold bind at 1. unfold gets at 1.
    unfold bind at 1. reflexivity.
  - reflexivity.
  - unfold bind, gets, raise. now rewrite Eq.
Qed.

(** What the loop of [main] leaves behind, however it ends: new instances
    at the end of [File.files], each for a path that is there and is no
    directory, and nothing else changed but the identities handed out. *)
Lemma scan_paths_records (paths : list Path) :
  forall p : process,
  exists new : list File,
    File_files (final (scan_paths paths p)) = File_files p ++ new
    /\ Forall (fun f => directory f = os.dirname (path f)
                        /\ In (path f) paths
                        /\ exists i, lookup (disk p) (path f) = Some (Leaf i)
                                     /\ size_in_bytes f = st_size i) new
    /\ disk (final (scan_paths paths p)) = disk p
    /\ directories_to_ignore (final (scan_paths paths p))
       = directories_to_ignore p
    /\ stdin (final (scan_paths paths p)) = stdin p
    /\ stdout (final (scan_paths paths p)) = stdout p.
Proof.
  induction paths as [|q paths IH]; intros p.
  - exists []. cbn. rewrite app_nil_r. repeat split. constructor.
  - rewrite scan_paths_cons.
    destruct (lookup (disk p) q) as [[i|sub]|] eqn:Eq.
    + destruct (File_init_cases q (st_size i)
                  (timedelta_days (clock p) (st_ctime i)) p) as [H|[e H]];
        rewrite H.
      * set (f := mkFile (next_oid p) (st_size i) q (os.dirname q)
                         (timedelta_days (clock p) (st_ctime i))).
        set (p1 := with_File_files (File_files p ++ [f])
                     (with_next_oid (S (next_oid p)) p)).
        destruct (IH p1) as (new & Hf & Hall & Hd & Hi & Hin & Hout).
        exists (f :: new). rewrite Hf, Hd, Hi, Hin, Hout.
        split; [subst p1; cbn; now rewrite <- app_assoc|].
        split; [|repeat split].
        constructor.
        -- subst f. cbn. split; [reflexivity|]. split; [now left|].
           exists i. now split.
        -- eapply Forall_impl; [|exact Hall].
           intros g (Hg1 & Hg2 & Hg3). split; [exact Hg1|].
           split; [now right|exact Hg3].
      * exists []. cbn. rewrite app_nil_r. repeat split. constructor.
    + destruct (IH p) as (new & Hf & Hall & Hrest).
      exists new. split; [exact Hf|]. split; [|exact Hrest].
      eapply Forall_impl; [|exact Hall].
      intros g (Hg1 & Hg2 & Hg3). split; [exact Hg1|].
      split; [now right|exact Hg3].
    + exists []. cbn. rewrite app_nil_r. repeat split. constructor.
Qed.

Lemma scan_records (d : Path) (p : process) :
  exists new : list File,
    File_files (final (scan d p)) = File_files p ++ new
    /\ Forall (fun f => directory f = os.dirname (path f)
                        /\ exists i, lookup (disk p) (path f) = Some (Leaf i)
                                     /\ size_in_bytes f = st_size i) new
    /\ disk (final (scan d p)) = disk p
    /\ directories_to_ignore (final (scan d p)) = directories_to_ignore p
    /\ stdin (final (scan d p)) = stdin p
    /\ stdout (final (scan d p)) = stdout p.
Proof.
  assert (Hscan : scan d p
                  = scan_paths match lookup (disk p) d with
                               | Some n => map (app d) (glob_below n)
                               | None => []
                               end p) by reflexivity.
  rewrite Hscan.
  match goal with
  | |- context [scan_paths ?l p] =>
      destruct (scan_paths_records l p) as (new & Hf & Hall & Hrest)
  end.
  exists new. split; [exact Hf|]. split; [|exact Hrest].
  eapply Forall_impl; [|exact Hall].
  intros g (Hg1 & _ & Hg3). now split.
Qed.

(** X5.  When [order_by] is neither [age] nor [size], [main] first scans,
    constructing every [File], and then fails with [UnboundLocalError] where
    it reads [files]: no session is constructed and nothing is written. *)
Theorem main_unknown_order_raises_after_scan
        (d : Path) (order_by : string) (fuel : nat) (p p1 : process) :
  order_by <> "age"%string ->
  order_by <> "size"%string ->
  scan d p = Ok tt p1 ->
  main d order_by fuel p = Raise UnboundLocalError p1
  /\ stdout p1 = stdout p
  /\ disk p1 = disk p.
Proof.
  intros Hage Hsize Hscan.
  split.
  - unfold main. rewrite (bind_Ok _ _ _ _ _ Hscan).
    apply String.eqb_neq in Hage, Hsize. rewrite Hage, Hsize. reflexivity.
  - destruct (scan_records d p) as (new & _ & _ & Hd & _ & _ & Hout).
    rewrite Hscan in Hd, Hout. now split.
Qed.

(** X5 on a run. *)
Lemma main_unknown_order_raises_after_scan_witness :
  main ["x"%string] "name" 1000 (Scenario.boot Scenario.disk_x ["s"%string])
  = Raise UnboundLocalError
          (final (scan ["x"%string]
                       (Scenario.boot Scenario.disk_x ["s"%string]))).
Proof.
  refine (proj1 (main_unknown_order_raises_after_scan
                   ["x"%string] "name" 1000
                   (Scenario.boot Scenario.disk_x ["s"%string])
                   (final (scan ["x"%string]
                                (Scenario.boot Scenario.disk_x ["s"%string])))
                   _ _ eq_refl)); discriminate.
Defined.

Lemma lookup_dirname (q : Path) :
  forall (es : entries) (m : node),
    lookup es q = Some m ->
    exists sub, lookup es (removelast q) = Some (Dir sub).
Proof.
  induction q as [|x q IH]; intros es m.
  - intros _. now exists es.
  - destruct q as [|y q].
    + intros _. now exists es.
    + change (removelast (x :: y :: q)) with (x :: removelast (y :: q)).
      cbn [lookup]. destruct (assoc x es) as [[i|sub]|]; try discriminate.
      apply IH.
Qed.

(** [main] up to the dispatch of its first token, with one frame or more
    of the seven methods, and with none. *)
Lemma main_first_prompt
        (d : Path) (order_by : string) (p p1 : process)
        (tok : string) (rest : list string) :
  File_files p = [] ->
  directories_to_ignore p = [] ->
  stdin p = tok :: rest ->
  scan d p = Ok tt p1 ->
  File_files p1 <> [] ->
  order_by = "size"%string \/ order_by = "age"%string ->
  exists (f0 : File) (catalog : list File),
    Permutation (File_files p1) catalog
    /\ hd_error catalog = Some f0
    /\ (forall fuel,
          main d order_by (S fuel) p
          = dispatch fuel (mkStateMachine catalog f0) tok
                     (prompted f0 rest p1))
    /\ main d order_by 0 p = Raise RecursionError p1
    /\ (order_by = "size"%string ->
        forall f, In f catalog -> size_in_bytes f0 <= size_in_bytes f)
    /\ (order_by = "age"%string ->
        forall f, In f catalog -> age_in_days f <= age_in_days f0).
Proof.
  intros Hfiles Hign Hin Hscan Hne Horder.
  destruct (scan_records d p) as (new & Hf & Hall & Hd & Hi & Hsin & _).
  rewrite Hscan in Hf, Hd, Hi, Hsin. cbn [final] in Hf, Hd, Hi, Hsin.
  rewrite Hfiles in Hf. cbn [app] in Hf.
  set (catalog := if String.eqb order_by "age"
                  then sorted age_in_days (File_files p1) true
                  else sorted size_in_bytes (File_files p1) false).
  assert (Hperm : Permutation (File_files p1) catalog).
  { subst catalog. destruct (String.eqb order_by "age"); apply sorted_perm. }
  assert (Hcat : (if String.eqb order_by "age" then File.files_by_age
                  else if String.eqb order_by "size" then File.files_by_size
                  else raise UnboundLocalError) p1 = Ok catalog p1).
  { subst catalog. destruct Horder as [->| ->]; reflexivity. }
  destruct catalog as [|f0 tl] eqn:Ecat.
  { apply Permutation_sym, Permutation_nil in Hperm. contradiction. }
  exists f0, (f0 :: tl).
  split; [exact Hperm|]. split; [reflexivity|].
  assert (Hf0 : In f0 new).
  { rewrite <- Hf. eapply Permutation_in; [apply Permutation_sym, Hperm|].
    now left. }
  rewrite Forall_forall in Hall.
  destruct (Hall f0 Hf0) as (Hdir & i & Hlook & _).
  unfold os.dirname in Hdir.
  split.
  { intros fuel. unfold main. rewrite (bind_Ok _ _ _ _ _ Hscan).
    rewrite (bind_Ok _ _ _ _ _ Hcat).
    unfold StateMachine.__init__ at 1. unfold bind at 1. unfold ret at 1.
    rewrite transition_fresh.
    + apply bind_Ok. apply prompt_listable.
      * unfold listable. cbn [current_file]. rewrite Hd, Hdir.
        destruct (lookup_dirname _ _ _ Hlook) as [sub ->]. reflexivity.
      * now rewrite Hsin.
    + unfold fresh. cbn [current_file]. rewrite Hd, Hlook, Hi, Hign.
      reflexivity. }
  split.
  { unfold main. rewrite (bind_Ok _ _ _ _ _ Hscan).
    rewrite (bind_Ok _ _ _ _ _ Hcat). reflexivity. }
  split; intros Ho f Hfin.
    + assert (Hs : StronglySorted
                     (fun a b => size_in_bytes a <= size_in_bytes b)
                     (f0 :: tl)).
      { rewrite <- Ecat. subst order_by. apply sort_sorted. }
      destruct Hfin as [<-|Hfin]; [lia|].
      apply StronglySorted_inv in Hs as [_ Hs].
      rewrite Forall_forall in Hs. now apply Hs.
    + assert (Hs : StronglySorted
                     (fun a b => age_in_days b <= age_in_days a)
                     (f0 :: tl)).
      { rewrite <- Ecat. subst order_by. unfold sorted. cbn [String.eqb].
        apply (StronglySorted_rev (fun a b => age_in_days a <= age_in_days b)).
        apply sort_sorted. }
      destruct Hfin as [<-|Hfin]; [lia|].
      apply StronglySorted_inv in Hs as [_ Hs].
      rewrite Forall_forall in Hs. now apply Hs.
Qed.

(** X6.  The directory holds no pattern character.  In a process that has
    constructed no [File] and ignored no directory, when the scan returns
    with at least one record and a token waits on standard input, [main]
    constructs the session over all the scanned records in the chosen order
    and its first prompt is for the first of them, a record of least size
    for [size], of greatest age for [age]; it goes on as the dispatch of the
    token read there.  It does so with frames enough, and whenever it does
    not exhaust the stack. *)
Theorem main_first_prompt_is_first_of_ordering
        (d : Path) (order_by : string) (p p1 : process)
        (tok : string) (rest : list string) :
  glob.literal d = true ->
  File_files p = [] ->
  directories_to_ignore p = [] ->
  stdin p = tok :: rest ->
  scan d p = Ok tt p1 ->
  File_files p1 <> [] ->
  order_by = "size"%string \/ order_by = "age"%string ->
  exists (f0 : File) (catalog : list File),
    Permutation (File_files p1) catalog
    /\ hd_error catalog = Some f0
    /\ (exists frames : nat,
          forall fuel : nat,
            (frames <= fuel)%nat ->
            main d order_by fuel p
            = dispatch (Nat.pred fuel) (mkStateMachine catalog f0) tok
                       (prompted f0 rest p1))
    /\ (forall fuel : nat,
          overflowed (main d order_by fuel p) = false ->
          main d order_by fuel p
          = dispatch (Nat.pred fuel) (mkStateMachine catalog f0) tok
                     (prompted f0 rest p1))
    /\ (order_by = "size"%string ->
        forall f, In f catalog -> size_in_bytes f0 <= size_in_bytes f)
    /\ (order_by = "age"%string ->
        forall f, In f catalog -> age_in_days f <= age_in_days f0).
Proof.
  intros _ Hfiles Hign Hin Hscan Hne Horder.
  destruct (main_first_prompt d order_by p p1 tok rest
                              Hfiles Hign Hin Hscan Hne Horder)
    as (f0 & catalog & Hperm & Hhd & Hrun & Hnone & Hsize & Hage).
  exists f0, catalog.
  split; [exact Hperm|]. split; [exact Hhd|].
  split.
  { exists 1%nat. intros [|fuel] Hle; [lia|]. apply Hrun. }
  split; [|now split].
  intros [|fuel] Ho.
  - rewrite Hnone in Ho. discriminate.
  - apply Hrun.
Qed.

(** X6 on a run: [/x/a] has 5 bytes and [/x/b] has 10, and [main], with
    the 1000 frames of the interpreter's default, asks about [/x/a]
    first. *)
Lemma main_first_prompt_is_first_of_ordering_witness :
  exists (f0 : File) (catalog : list File),
    hd_error catalog = Some f0
    /\ main ["x"%string] "size" 1000
            (Scenario.boot Scenario.disk_x ["s"; "s"]%string)
       = dispatch 999 (mkStateMachine catalog f0) "s"
           (prompted f0 ["s"%string]
              (final (scan ["x"%string]
                           (Scenario.boot Scenario.disk_x
                                          ["s"; "s"]%string)))).
Proof.
  destruct (main_first_prompt_is_first_of_ordering
              ["x"%string] "size"
              (Scenario.boot Scenario.disk_x ["s"; "s"]%string)
              (final (scan ["x"%string]
                           (Scenario.boot Scenario.disk_x ["s"; "s"]%string)))
              "s"%string ["s"%string]
              eq_refl eq_refl eq_refl eq_refl eq_refl
              ltac:(discriminate) (or_introl eq_refl))
    as (f0 & catalog & _ & Hhd & _ & Hmain & _).
  exists f0, catalog. split; [exact Hhd|].
  apply (Hmain 1000%nat). vm_compute. reflexivity.
Defined.

(* ================================================================= *)
(** * What a deletion does to the disk *)

Lemma assoc_alter_other (x y : string) (f : node -> option node)
      (es : entries) :
  y <> x -> assoc y (alter x f es) = assoc y es.
Proof.
  intros Hne. unfold alter.
  induction es as [|[z c] es IH]; [reflexivity|].
  cbn [flat_map fst snd assoc].
  destruct (String.eqb_spec z x) as [->|Hzx].
  - destruct (String.eqb_spec x y) as [->|_]; [contradiction|].
    destruct (f c); cbn [app assoc]; [|exact IH].
    destruct (String.eqb_spec x y) as [->|_]; [contradiction|exact IH].
  - cbn [app assoc]. now rewrite IH.
Qed.

Lemma assoc_alter_removed (x : string) (es : entries) :
  assoc x (alter x (fun _ => None) es) = None.
Proof.
  unfold alter. induction es as [|[z c] es IH]; [reflexivity|].
  cbn [flat_map fst snd].
  destruct (String.eqb_spec z x) as [->|Hzx]; cbn [app assoc]; [exact IH|].
  destruct (String.eqb_spec z x); [contradiction|exact IH].
Qed.

Lemma assoc_alter_same (x : string) (g : node -> node) (es : entries) :
  assoc x (alter x (fun c => Some (g c)) es) = option_map g (assoc x es).
Proof.
  unfold alter. induction es as [|[z c] es IH]; [reflexivity|].
  cbn [flat_map fst snd assoc].
  destruct (String.eqb_spec z x) as [->|Hzx]; cbn [app assoc].
  - now rewrite String.eqb_refl.
  - destruct (String.eqb_spec z x); [contradiction|exact IH].
Qed.

Lemma update_cons (x y : string) (d : Path) (f : node -> option node)
      (es : entries) :
  update (x :: y :: d) f es
  = alter x (fun c => Some (update_below (y :: d) f c)) es.
Proof.
  cbn [update]. unfold alter.
  induction es as [|[z c] es IH]; [reflexivity|].
  cbn [flat_map fst snd]. rewrite IH.
  destruct (String.eqb z x); [|reflexivity]. now destruct c.
Qed.

Lemma kind_cons (es : entries) (x : string) (q : Path) :
  kind es (x :: q)
  = match assoc x es with
    | Some (Dir sub) => kind sub q
    | Some (Leaf _) => match q with [] => Some false | _ :: _ => None end
    | None => None
    end.
Proof.
  unfold kind. cbn [lookup].
  destruct (assoc x es) as [[i|sub]|]; [|reflexivity|reflexivity].
  now destruct q.
Qed.

(** A path that does not lie at or below [d] is what it was. *)
Lemma kind_update_outside (d : Path) (f : node -> option node) :
  forall (es : entries) (q : Path),
    ~ prefix d q -> kind (update d f es) q = kind es q.
Proof.
  induction d as [|x d IH]; intros es q Hq.
  - exfalso. apply Hq. now exists q.
  - destruct q as [|y q]; [reflexivity|].
    rewrite !kind_cons.
    destruct (String.eqb_spec y x) as [->|Hne].
    + assert (Hq' : ~ prefix d q).
      { intros [l ->]. apply Hq. now exists l. }
      destruct d as [|z d].
      { exfalso. apply Hq'. now exists q. }
      rewrite update_cons, assoc_alter_same.
      destruct (assoc x es) as [[i|sub]|]; cbn [option_map update_below];
        [reflexivity| |reflexivity].
      now apply IH.
    + destruct d as [|z d].
      * cbn [update]. now rewrite assoc_alter_other.
      * rewrite update_cons. now rewrite assoc_alter_other.
Qed.

(** After the entry at [d] is removed nothing is found at or below [d]. *)
Lemma lookup_update_removed (d : Path) :
  d <> [] ->
  forall (es : entries) (rel : Path),
    lookup (update d (fun _ => None) es) (d ++ rel) = None.
Proof.
  induction d as [|x d IH]; intros Hd es rel; [contradiction|].
  destruct d as [|z d].
  - cbn [update app lookup]. now rewrite assoc_alter_removed.
  - rewrite update_cons. cbn [app lookup]. rewrite assoc_alter_same.
    destruct (assoc x es) as [[i|sub]|]; cbn [option_map update_below];
      [reflexivity| |reflexivity].
    apply (IH ltac:(discriminate) sub rel).
Qed.

(** X7.  When [delete_file] returns, the path of the record is gone from
    the disk, and every path that does not lie at or below it is what it
    was: there or not, a directory or not.  Nothing else of the process has
    changed. *)
Theorem delete_file_removes_that_path_only (f : File) (p p' : process) :
  File.delete_file f p = Ok tt p' ->
  lookup (disk p') (path f) = None
  /\ (forall q, ~ prefix (path f) q -> kind (disk p') q = kind (disk p) q)
  /\ p' = with_disk (disk p') p.
Proof.
  unfold File.delete_file, os.remove, bind, gets, raise, modify.
  destruct (lookup (disk p) (path f)) as [[i|sub]|] eqn:El; try discriminate.
  destruct (st_immutable i); [discriminate|].
  intros [= <-]. cbn [disk with_disk].
  assert (Hne : path f <> []).
  { intros E. rewrite E in El. discriminate. }
  split.
  - rewrite <- (app_nil_r (path f)) at 2. now apply lookup_update_removed.
  - split; [|reflexivity]. intros q Hq. now apply kind_update_outside.
Qed.

(** X7 on a run: [/x/a] is removed and [/x/b] stays. *)
Lemma delete_file_removes_that_path_only_witness :
  kind (disk (final (File.delete_file Scenario.A
                       (Scenario.boot Scenario.disk_x []))))
       ["x"; "b"]%string
  = Some false.
Proof.
  refine (eq_trans
    (proj1 (proj2
      (delete_file_removes_that_path_only
         Scenario.A (Scenario.boot Scenario.disk_x [])
         (final (File.delete_file Scenario.A (Scenario.boot Scenario.disk_x [])))
         eq_refl)) ["x"; "b"]%string _) eq_refl).
  intros [l H]. discriminate H.
Defined.

(** X8.  When [delete_file_directory] returns, nothing is left at or below
    the directory of the record, so every record whose path lies there
    fails the check of [transition]; and every path that does not lie at or
    below that directory is what it was. *)
Theorem delete_file_directory_removes_all_below (f : File) (p p' : process) :
  File.delete_file_directory f p = Ok tt p' ->
  (forall q, prefix (directory f) q -> lookup (disk p') q = None)
  /\ (forall g : File, prefix (directory f) (path g) -> fresh g p' = false)
  /\ (forall q, ~ prefix (directory f) q -> kind (disk p') q = kind (disk p) q)
  /\ p' = with_disk (disk p') p.
Proof.
  unfold File.delete_file_directory, shutil.rmtree.
  unfold bind at 1. unfold gets at 1.
  destruct (lookup (disk p) (directory f)) as [[i|sub]|] eqn:El;
    try discriminate.
  generalize (rmtree_node (Dir sub)). intros r.
  destruct (directory f) as [|x d] eqn:Ed.
  { destruct r as [[i|rem]|]; discriminate. }
  destruct r as [n'|]; [discriminate|].
  unfold modify. intros [= <-]. cbn [disk with_disk].
  assert (Hgone : forall q, prefix (x :: d) q ->
                            lookup (update (x :: d) (fun _ => None) (disk p)) q
                            = None).
  { intros q [l ->]. now apply lookup_update_removed. }
  split; [exact Hgone|].
  split.
  - intros g Hg. unfold fresh. cbn [disk with_disk]. now rewrite Hgone.
  - split; [|reflexivity]. intros q Hq.
    exact (kind_update_outside (x :: d) _ (disk p) q Hq).
Qed.

(** X8 on a run: [/x] is removed with [/x/a] and [/x/b], and [/y/c]
    stays. *)
Lemma delete_file_directory_removes_all_below_witness :
  fresh Scenario.B
        (final (File.delete_file_directory Scenario.A
                  (Scenario.boot Scenario.disk_xy [])))
  = false.
Proof.
  refine (proj1 (proj2
    (delete_file_directory_removes_all_below
       Scenario.A (Scenario.boot Scenario.disk_xy [])
       (final (File.delete_file_directory Scenario.A
                 (Scenario.boot Scenario.disk_xy [])))
       eq_refl)) Scenario.B _).
  now exists ["b"%string].
Defined.

(* ================================================================= *)
(** * The tree of [DisplayablePath] *)

Section Tree.

Variable lower : string -> string.

Lemma insert_on_perm {A} (key : A -> string) (x : A) (l : list A) :
  Permutation (x :: l) (insert_on key x l).
Proof.
  induction l as [|y l IH]; cbn [insert_on].
  - apply Permutation_refl.
  - destruct (String.leb (key x) (key y)).
    + apply Permutation_refl.
    + eapply perm_trans; [apply perm_swap|]. now apply perm_skip.
Qed.

Lemma sorted_on_perm {A} (key : A -> string) (l : list A) :
  Permutation l (sorted_on key l).
Proof.
  induction l as [|x l IH]; cbn.
  - constructor.
  - eapply perm_trans; [apply perm_skip, IH|]. apply insert_on_perm.
Qed.

Lemma flat_map_map {A B C} (f : A -> B) (g : B -> list C) (l : list A) :
  flat_map g (map f l) = flat_map (fun x => g (f x)) l.
Proof. induction l as [|x l IH]; cbn; [reflexivity|now rewrite IH]. Qed.

Lemma Permutation_flat_map_pointwise {A B} (f g : A -> list B) (l : list A) :
  Forall (fun x => Permutation (f x) (g x)) l ->
  Permutation (flat_map f l) (flat_map g l).
Proof.
  induction 1 as [|x l Hx Hl IH]; cbn; [constructor|].
  now apply Permutation_app.
Qed.

(** Whatever holds of all that each child yields holds of all the loop
    yields. *)
Lemma visit_Forall (P : DisplayablePath.t -> Prop)
      (cs : list (Path * (bool -> list DisplayablePath.t))) (c len : nat) :
  Forall (fun pk => forall b, Forall P (snd pk b)) cs ->
  Forall P (DisplayablePath.visit cs c len).
Proof.
  revert c. induction cs as [|[q k] cs IH]; intros c Hcs; cbn; [constructor|].
  apply Forall_cons_iff in Hcs as [Hk Hcs].
  apply Forall_app. split; [apply Hk|now apply IH].
Qed.

Lemma visit_paths (cs : list (Path * (bool -> list DisplayablePath.t)))
      (c len : nat) :
  Forall (fun pk => forall b,
              Permutation (map DisplayablePath.path (snd pk b))
                          (map DisplayablePath.path (snd pk false))) cs ->
  Permutation (map DisplayablePath.path (DisplayablePath.visit cs c len))
              (flat_map (fun pk => map DisplayablePath.path (snd pk false)) cs).
Proof.
  revert c. induction cs as [|[q k] cs IH]; intros c Hcs; cbn; [constructor|].
  apply Forall_cons_iff in Hcs as [Hk Hcs].
  rewrite map_app. apply Permutation_app; [apply Hk|now apply IH].
Qed.

(** The paths of the tree are those at and below the node, in another
    order. *)
Lemma yield_child_paths (n : node) :
  forall (root hl : Path) (par : option DisplayablePath.t) (b : bool),
    Permutation
      (map DisplayablePath.path
           (DisplayablePath.yield_child lower n root hl par b))
      (tree_paths n root).
Proof.
  induction n as [i|es IHes] using node_induction; intros root hl par b.
  - apply Permutation_refl.
  - cbn [DisplayablePath.yield_child tree_paths map DisplayablePath.path
         DisplayablePath.__init__].
    apply perm_skip.
    set (dr := DisplayablePath.__init__ root hl par b).
    set (F := fun xc : string * node =>
                (root ++ [fst xc],
                 DisplayablePath.yield_child lower (snd xc) (root ++ [fst xc])
                                             hl (Some dr))).
    set (children :=
           sorted_on (fun child : Path * (bool -> list DisplayablePath.t) =>
                        lower (str (fst child))) (map F es)).
    assert (Hperm : Permutation children (map F es))
      by apply Permutation_sym, sorted_on_perm.
    eapply perm_trans.
    { apply visit_paths. apply Forall_forall. intros pk Hpk b'.
      apply (Permutation_in _ Hperm) in Hpk.
      apply in_map_iff in Hpk as (xc & <- & Hxc).
      rewrite Forall_forall in IHes. cbn [snd F].
      eapply perm_trans; [apply (IHes xc Hxc)|].
      apply Permutation_sym, (IHes xc Hxc). }
    eapply perm_trans.
    { apply Permutation_flat_map. exact Hperm. }
    rewrite flat_map_map.
    apply Permutation_flat_map_pointwise.
    rewrite Forall_forall in IHes. apply Forall_forall. intros xc Hxc.
    cbn [snd F]. apply (IHes xc Hxc).
Qed.

Lemma tree_paths_prefix (n : node) :
  forall (root q : Path), In q (tree_paths n root) -> prefix root q.
Proof.
  induction n as [i|es IHes] using node_induction; intros root q.
  - intros [<-|[]]. apply prefix_refl.
  - cbn [tree_paths]. intros [<-|H]; [apply prefix_refl|].
    apply in_flat_map in H as (xc & Hxc & H).
    rewrite Forall_forall in IHes.
    destruct (IHes xc Hxc _ _ H) as [l ->].
    exists ([fst xc] ++ l). now rewrite app_assoc.
Qed.

Lemma lookup_cons_in (es : entries) (x : string) (rel : Path) :
  lookup es (x :: rel)
  = match assoc x es with
    | Some c => lookup_in c rel
    | None => None
    end.
Proof.
  cbn [lookup]. destruct (assoc x es) as [[i|sub]|]; reflexivity.
Qed.

Lemma tree_paths_In (n : node) :
  forall (root q : Path),
    well_formed n = true ->
    In q (tree_paths n root)
    <-> exists rel m, q = root ++ rel /\ lookup_in n rel = Some m.
Proof.
  induction n as [i|es IHes] using node_induction; intros root q Hwf.
  - cbn [tree_paths lookup_in]. split.
    + intros [<-|[]]. exists [], (Leaf i). now rewrite app_nil_r.
    + intros (rel & m & -> & Hm). destruct rel; [|discriminate].
      left. now rewrite app_nil_r.
  - destruct (well_formed_Dir es Hwf) as [Hnd Hall].
    rewrite Forall_forall in IHes.
    cbn [tree_paths lookup_in]. split.
    + intros [<-|H].
      * exists [], (Dir es). now rewrite app_nil_r.
      * apply in_flat_map in H as ([x c] & Hxc & H). cbn [fst snd] in H.
        apply (IHes (x, c) Hxc _ _ (Hall x c Hxc)) in H
          as (rel & m & -> & Hm).
        exists (x :: rel), m. split; [now rewrite <- app_assoc|].
        rewrite lookup_cons_in. now rewrite (In_assoc _ _ _ Hnd Hxc).
    + intros (rel & m & -> & Hm). destruct rel as [|x rel].
      * left. now rewrite app_nil_r.
      * right. rewrite lookup_cons_in in Hm.
        destruct (assoc x es) as [c|] eqn:Ea; [|discriminate].
        pose proof (assoc_In _ _ _ Ea) as Hxc.
        apply in_flat_map. exists (x, c). split; [exact Hxc|].
        cbn [fst snd].
        apply (IHes (x, c) Hxc _ _ (Hall x c Hxc)).
        exists rel, m. split; [now rewrite <- app_assoc|exact Hm].
Qed.

Lemma tree_paths_NoDup (n : node) :
  forall root : Path, well_formed n = true -> NoDup (tree_paths n root).
Proof.
  induction n as [i|es IHes] using node_induction; intros root Hwf.
  - repeat constructor. intros [].
  - destruct (well_formed_Dir es Hwf) as [Hnd Hall].
    cbn [tree_paths]. constructor.
    + intros H. apply in_flat_map in H as (xc & Hxc & H).
      apply tree_paths_prefix in H as [l H].
      rewrite <- app_assoc in H.
      rewrite <- (app_nil_r root) in H at 1.
      apply app_inv_head in H. discriminate.
    + clear Hwf. induction es as [|[x c] es IH]; [constructor|].
      cbn [flat_map fst snd].
      apply Forall_cons_iff in IHes as [Hc IHes'].
      cbn [map fst snd] in Hnd, Hc.
      apply NoDup_cons_iff in Hnd as [Hnotin Hnd'].
      apply NoDup_app.
      * apply Hc. apply (Hall x c). now left.
      * apply IH; [exact IHes'|exact Hnd'|].
        intros y c' Hin. apply (Hall y c'). now right.
      * intros q H1 H2.
        apply tree_paths_prefix in H1 as [l1 ->].
        apply in_flat_map in H2 as ([y c'] & Hin & H2). cbn [fst snd] in H2.
        apply tree_paths_prefix in H2 as [l2 H2].
        rewrite <- !app_assoc in H2. apply app_inv_head in H2.
        injection H2 as -> _.
        apply Hnotin. change y with (fst (y, c')). now apply in_map.
Qed.

(** X9.  The tree of a directory has one instance for the directory, which
    comes first, and one for every entry at any depth below it, hidden ones
    included, and no other: the tree shows what the scan leaves out. *)
Theorem tree_lists_every_entry_once
        (disk es : entries) (d hl : Path) :
  well_formed (Dir disk) = true ->
  lookup disk d = Some (Dir es) ->
  let tree := DisplayablePath.make_tree lower es d hl None false in
  hd_error (map DisplayablePath.path tree) = Some d
  /\ NoDup (map DisplayablePath.path tree)
  /\ (forall q : Path,
        In q (map DisplayablePath.path tree)
        <-> exists rel m, q = d ++ rel /\ lookup disk q = Some m)
  /\ List.length (DisplayablePath.printed lower disk d hl)
     = List.length tree.
Proof.
  intros Hwf Hd tree.
  pose proof (well_formed_lookup d _ _ Hwf Hd) as Hwfd.
  pose proof (yield_child_paths (Dir es) d hl None false) as Hperm.
  fold (DisplayablePath.make_tree lower es d hl None false) in Hperm.
  fold tree in Hperm.
  split; [reflexivity|].
  split.
  { eapply Permutation_NoDup; [apply Permutation_sym, Hperm|].
    now apply tree_paths_NoDup. }
  split.
  { intros q. split.
    - intros H. apply (Permutation_in _ Hperm) in H.
      apply (tree_paths_In (Dir es) d q Hwfd) in H as (rel & m & -> & Hm).
      exists rel, m. split; [reflexivity|].
      now rewrite (lookup_app d disk es rel Hd).
    - intros (rel & m & -> & Hm).
      apply (Permutation_in _ (Permutation_sym Hperm)).
      apply (tree_paths_In (Dir es) d _ Hwfd).
      exists rel, m. split; [reflexivity|].
      now rewrite (lookup_app d disk es rel Hd) in Hm. }
  unfold DisplayablePath.printed. rewrite Hd. apply length_map.
Qed.

End Tree.

(** X9 on a run: the tree of [/x] has its five entries and itself. *)
Lemma tree_lists_every_entry_once_witness :
  List.length (DisplayablePath.printed Scenario.lower Scenario.disk_tree
                                       ["x"%string] ["x"; "b"]%string)
  = 6%nat
  /\ In ["x"; ".h"]%string
        (map DisplayablePath.path
             (DisplayablePath.make_tree
                Scenario.lower
                [("b"%string, Scenario.regular 5);
                 ("sub"%string, Dir [("c"%string, Scenario.regular 1)]);
                 ("A"%string, Scenario.regular 10);
                 (".h"%string, Scenario.regular 1)]
                ["x"%string] ["x"; "b"]%string None false)).
Proof.
  split; [reflexivity|].
  apply (proj1 (proj2 (proj2
    (tree_lists_every_entry_once
       Scenario.lower Scenario.disk_tree _ ["x"%string] ["x"; "b"]%string
       eq_refl eq_refl)))).
  exists [".h"%string], (Scenario.regular 1). split; reflexivity.
Defined.

(* ================================================================= *)
(** * The lines of the tree *)

Lemma append_nil_r (s : string) : (s ++ "")%string = s.
Proof. induction s as [|a s IH]; cbn; [reflexivity|now rewrite IH]. Qed.

Lemma append_assoc (s1 s2 s3 : string) :
  ((s1 ++ s2) ++ s3)%string = (s1 ++ s2 ++ s3)%string.
Proof. induction s1 as [|a s1 IH]; cbn; [reflexivity|now rewrite IH]. Qed.

Lemma length_append (s1 s2 : string) :
  String.length (s1 ++ s2) = (String.length s1 + String.length s2)%nat.
Proof. induction s1 as [|a s1 IH]; cbn; [reflexivity|now rewrite IH]. Qed.

Lemma join_cons (x : string) (l : list string) :
  String.concat "" (x :: l) = (x ++ String.concat "" l)%string.
Proof.
  destruct l as [|y l]; cbn [String.concat].
  - now rewrite append_nil_r.
  - reflexivity.
Qed.

Lemma join_app (l1 l2 : list string) :
  String.concat "" (l1 ++ l2)
  = (String.concat "" l1 ++ String.concat "" l2)%string.
Proof.
  induction l1 as [|x l1 IH].
  - reflexivity.
  - rewrite <- app_comm_cons, !join_cons, IH. now rewrite append_assoc.
Qed.

(** Each column left of the connector is one of the two parent prefixes. *)
Lemma parent_prefixes_columns :
  forall par : DisplayablePath.t,
    Forall (fun c => c = DisplayablePath.display_parent_prefix_middle
                     \/ c = DisplayablePath.display_parent_prefix_last)
           (DisplayablePath.parent_prefixes par).
Proof.
  fix IH 1. intros [pth [gp|] hl last dep]; cbn [DisplayablePath.parent_prefixes].
  - constructor; [|apply IH]. destruct last; [now left|now right].
  - constructor.
Qed.

Section Lines.

Variable lower : string -> string.

(** What [make_tree] establishes for every instance it yields, when the
    parent it was given has as many parent prefixes as its depth. *)
Lemma yield_child_instances (n : node) :
  forall (root hl : Path) (par : option DisplayablePath.t) (b : bool),
    match par with
    | Some p => DisplayablePath.depth p
                = List.length (DisplayablePath.parent_prefixes p)
    | None => True
    end ->
    Forall (fun dp =>
              linked dp
              /\ DisplayablePath.child_to_highlight dp = hl
              /\ (List.length (DisplayablePath.path dp)
                  + match par with Some p => S (DisplayablePath.depth p)
                                 | None => O end
                  = List.length root + DisplayablePath.depth dp)%nat
              /\ (DisplayablePath.parent dp = None ->
                  par = None /\ DisplayablePath.path dp = root))
           (DisplayablePath.yield_child lower n root hl par b).
Proof.
  assert (Hroot : forall root hl par b,
             match par with
             | Some p => DisplayablePath.depth p
                         = List.length (DisplayablePath.parent_prefixes p)
             | None => True
             end ->
             let dp := DisplayablePath.__init__ root hl par b in
             linked dp
             /\ DisplayablePath.child_to_highlight dp = hl
             /\ (List.length (DisplayablePath.path dp)
                 + match par with Some p => S (DisplayablePath.depth p)
                                | None => O end
                 = List.length root + DisplayablePath.depth dp)%nat
             /\ (DisplayablePath.parent dp = None ->
                 par = None /\ DisplayablePath.path dp = root)).
  { intros root hl [p|] b Hp; cbn; unfold linked; cbn.
    - repeat split; try lia; try discriminate; exact Hp.
    - repeat split; lia. }
  induction n as [i|es IHes] using node_induction; intros root hl par b Hpar.
  - cbn [DisplayablePath.yield_child]. constructor; [|constructor].
    now apply Hroot.
  - cbn [DisplayablePath.yield_child].
    constructor; [now apply Hroot|].
    set (dr := DisplayablePath.__init__ root hl par b).
    assert (Hdr : DisplayablePath.depth dr
                  = List.length (DisplayablePath.parent_prefixes dr)).
    { subst dr. destruct par as [p|]; cbn; [now rewrite Hpar|reflexivity]. }
    apply visit_Forall. apply Forall_forall. intros pk Hpk b'.
    apply (Permutation_in _ (Permutation_sym (sorted_on_perm _ _))) in Hpk.
    apply in_map_iff in Hpk as (xc & <- & Hxc). cbn [snd].
    rewrite Forall_forall in IHes.
    specialize (IHes xc Hxc (root ++ [fst xc]) hl (Some dr) b' Hdr).
    eapply Forall_impl; [|exact IHes].
    intros dp (Hl & Hhl & Hlen & Hnone). cbn beta in *.
    split; [exact Hl|]. split; [exact Hhl|]. split.
    + rewrite length_app in Hlen. cbn [List.length] in Hlen.
      assert (DisplayablePath.depth dr
              = match par with Some p => S (DisplayablePath.depth p)
                             | None => O end)
        by (subst dr; now destruct par).
      lia.
    + intros H. now destruct (Hnone H).
Qed.

(** X10.  The line of every instance of the tree of a directory: the
    instance is as deep as its path is longer than the directory's; the
    directory itself, at depth 0, is shown by its display name alone; any
    other line has one column, blank or barred, for each directory strictly
    between the root and the entry, then the connector chosen by [is_last],
    a space and the display name. *)
Theorem tree_line_has_one_column_per_level
        (disk es : entries) (d hl : Path) (dp : DisplayablePath.t) :
  In dp (DisplayablePath.make_tree lower es d hl None false) ->
  List.length (DisplayablePath.path dp)
  = (List.length d + DisplayablePath.depth dp)%nat
  /\ (DisplayablePath.depth dp = O ->
      DisplayablePath.path dp = d
      /\ DisplayablePath.displayable disk dp
         = DisplayablePath.displayname disk dp)
  /\ (DisplayablePath.depth dp <> O ->
      exists columns : list string,
        S (List.length columns) = DisplayablePath.depth dp
        /\ Forall (fun c => c = "    "%string \/ c = "│   "%string) columns
        /\ DisplayablePath.displayable disk dp
           = (String.concat "" columns
              ++ (if DisplayablePath.is_last dp then "└──" else "├──")
              ++ " " ++ DisplayablePath.displayname disk dp)%string).
Proof.
  intros Hin.
  pose proof (yield_child_instances (Dir es) d hl None false I) as Hall.
  rewrite Forall_forall in Hall.
  destruct (Hall dp Hin) as (Hl & _ & Hlen & Hnone). clear Hall.
  split; [lia|].
  unfold linked in Hl. unfold DisplayablePath.displayable.
  destruct (DisplayablePath.parent dp) as [par|] eqn:Epar.
  - destruct Hl as [Hdepth Hpar]. split; [intros H; lia|].
    intros _. exists (rev (DisplayablePath.parent_prefixes par)).
    split; [rewrite length_rev; lia|].
    split.
    { apply Forall_rev. apply parent_prefixes_columns. }
    cbn [rev]. rewrite join_app. cbn [String.concat].
    destruct (DisplayablePath.is_last dp); reflexivity.
  - split; [|intros H; contradiction].
    intros _. split; [|reflexivity]. now apply Hnone.
Qed.

End Lines.

(** X10 on a run: [/x/sub/c], the only entry of the last directory of
    [/x], is two levels below [/x]. *)
Lemma tree_line_has_one_column_per_level_witness :
  exists dp : DisplayablePath.t,
    DisplayablePath.path dp = ["x"; "sub"; "c"]%string
    /\ List.length (DisplayablePath.path dp)
       = (1 + DisplayablePath.depth dp)%nat
    /\ DisplayablePath.displayable Scenario.disk_tree dp
       = ("    " ++ "└──" ++ " " ++ "c")%string.
Proof.
  set (es := [("b"%string, Scenario.regular 5);
              ("sub"%string, Dir [("c"%string, Scenario.regular 1)]);
              ("A"%string, Scenario.regular 10);
              (".h"%string, Scenario.regular 1)]).
  set (dp := nth 5 (DisplayablePath.make_tree Scenario.lower es ["x"%string]
                                              ["x"; "b"]%string None false)
                 (DisplayablePath.__init__ [] [] None false)).
  assert (Hin : In dp (DisplayablePath.make_tree
                         Scenario.lower es ["x"%string] ["x"; "b"]%string
                         None false)).
  { vm_compute. do 5 right. left. reflexivity. }
  exists dp. split; [reflexivity|]. split; [|reflexivity].
  exact (proj1 (tree_line_has_one_column_per_level
                  Scenario.lower Scenario.disk_tree es ["x"%string]
                  ["x"; "b"]%string dp Hin)).
Defined.

(* ================================================================= *)
(** * The highlighted line *)

Lemma coloured_is_longer (s : string) :
  String.length (bcolors.OKGREEN ++ s ++ bcolors.ENDC)
  = (9 + String.length s)%nat.
Proof.
  rewrite !length_append. cbn [bcolors.OKGREEN bcolors.ENDC String.length].
  lia.
Qed.

Lemma coloured_differs (s : string) :
  (bcolors.OKGREEN ++ s ++ bcolors.ENDC)%string <> s
  /\ (bcolors.OKGREEN ++ s ++ bcolors.ENDC)%string <> (s ++ "/")%string.
Proof.
  split; intros H; apply (f_equal String.length) in H;
    rewrite coloured_is_longer in H;
    rewrite ?length_append in H; cbn [String.length] in H; lia.
Qed.

(** X11.  When the path to highlight is an entry below the directory that is
    not a directory, the tree has exactly one instance of that path: its
    display name is the entry's name between the green and the reset escape
    sequences, and no other line of the tree is coloured - every other
    display name is the plain name, followed by a slash for a directory. *)
Theorem tree_colours_the_record_and_nothing_else
        (lower : string -> string) (disk es : entries) (d rel : Path)
        (i : inode) :
  well_formed (Dir disk) = true ->
  lookup disk d = Some (Dir es) ->
  lookup disk (d ++ rel) = Some (Leaf i) ->
  exists (before after : list DisplayablePath.t) (dp : DisplayablePath.t),
    DisplayablePath.make_tree lower es d (d ++ rel) None false
    = before ++ dp :: after
    /\ DisplayablePath.path dp = d ++ rel
    /\ DisplayablePath.displayname disk dp
       = (bcolors.OKGREEN ++ last (d ++ rel) "" ++ bcolors.ENDC)%string
    /\ Forall (fun other =>
                 DisplayablePath.path other <> d ++ rel
                 /\ DisplayablePath.displayname disk other
                    = (if is_directory disk (DisplayablePath.path other)
                       then DisplayablePath.name other ++ "/"
                       else DisplayablePath.name other)%string
                 /\ DisplayablePath.displayname disk other
                    <> (bcolors.OKGREEN ++ DisplayablePath.name other
                        ++ bcolors.ENDC)%string)
              (before ++ after).
Proof.
  intros Hwf Hd Hhl.
  set (hl := d ++ rel) in *.
  set (tree := DisplayablePath.make_tree lower es d hl None false).
  pose proof (well_formed_lookup d _ _ Hwf Hd) as Hwfd.
  pose proof (yield_child_paths lower (Dir es) d hl None false) as Hperm.
  fold (DisplayablePath.make_tree lower es d hl None false) in Hperm.
  fold tree in Hperm.
  assert (Hnd : NoDup (map DisplayablePath.path tree)).
  { eapply Permutation_NoDup; [apply Permutation_sym, Hperm|].
    now apply tree_paths_NoDup. }
  assert (Hin : In hl (map DisplayablePath.path tree)).
  { apply (Permutation_in _ (Permutation_sym Hperm)).
    apply (tree_paths_In (Dir es) d _ Hwfd).
    exists rel, (Leaf i). split; [reflexivity|].
    unfold hl in Hhl. now rewrite (lookup_app d disk es rel Hd) in Hhl. }
  apply in_map_iff in Hin as (dp & Hdp & Hin).
  apply in_split in Hin as (before & after & Htree).
  pose proof (yield_child_instances lower (Dir es) d hl None false I) as Hall.
  fold (DisplayablePath.make_tree lower es d hl None false) in Hall.
  fold tree in Hall.
  exists before, after, dp. split; [exact Htree|]. split; [exact Hdp|].
  rewrite Htree in Hnd, Hall.
  rewrite map_app in Hnd. cbn [map] in Hnd. rewrite Hdp in Hnd.
  apply NoDup_remove_2 in Hnd. rewrite <- map_app in Hnd.
  split.
  - assert (Hc : DisplayablePath.child_to_highlight dp = hl).
    { rewrite Forall_forall in Hall.
      apply (Hall dp). apply in_or_app. right. now left. }
    unfold DisplayablePath.displayname, DisplayablePath.name.
    rewrite Hdp, Hhl, Hc.
    destruct (list_eq_dec string_dec hl hl) as [_|Hne]; [reflexivity|].
    now destruct Hne.
  - apply Forall_forall. intros other Hother.
    assert (Hpath : DisplayablePath.path other <> hl).
    { intros Heq. apply Hnd. rewrite <- Heq. now apply in_map. }
    assert (Hc : DisplayablePath.child_to_highlight other = hl).
    { rewrite Forall_forall in Hall. apply (Hall other).
      apply in_app_or in Hother as [H|H]; apply in_or_app;
        [now left|right; now right]. }
    assert (Hname : DisplayablePath.displayname disk other
                    = (if is_directory disk (DisplayablePath.path other)
                       then DisplayablePath.name other ++ "/"
                       else DisplayablePath.name other)%string).
    { unfold DisplayablePath.displayname, is_directory. rewrite Hc.
      destruct (list_eq_dec string_dec (DisplayablePath.path other) hl)
        as [Heq|_]; [contradiction|].
      destruct (lookup disk (DisplayablePath.path other)) as [[j|sub]|];
        reflexivity. }
    split; [exact Hpath|]. split; [exact Hname|].
    rewrite Hname. intros H. symmetry in H.
    destruct (coloured_differs (DisplayablePath.name other)) as [H1 H2].
    destruct (is_directory disk (DisplayablePath.path other));
      [now apply H2|now apply H1].
Qed.

(** X11 on a run: of the six lines of the tree of [/x] for the record
    [/x/b], the third is the coloured one. *)
Lemma tree_colours_the_record_and_nothing_else_witness :
  exists (before after : list DisplayablePath.t) (dp : DisplayablePath.t),
    DisplayablePath.make_tree
      Scenario.lower
      [("b"%string, Scenario.regular 5);
       ("sub"%string, Dir [("c"%string, Scenario.regular 1)]);
       ("A"%string, Scenario.regular 10);
       (".h"%string, Scenario.regular 1)]
      ["x"%string] (["x"%string] ++ ["b"%string]) None false
    = before ++ dp :: after
    /\ DisplayablePath.displayname Scenario.disk_tree dp
       = (bcolors.OKGREEN ++ "b" ++ bcolors.ENDC)%string.
Proof.
  destruct (tree_colours_the_record_and_nothing_else
              Scenario.lower Scenario.disk_tree _ ["x"%string] ["b"%string]
              _ eq_refl eq_refl eq_refl)
    as (before & after & dp & Htree & _ & Hname & _).
  exists before, after, dp. split; [exact Htree|exact Hname].
Defined.

(* ================================================================= *)
(** * The order of the lines below the root *)

Lemma insert_on_map {A B} (key : B -> string) (F : A -> B) (x : A)
      (l : list A) :
  insert_on key (F x) (map F l)
  = map F (insert_on (fun a => key (F a)) x l).
Proof.
  induction l as [|y l IH]; cbn [insert_on map]; [reflexivity|].
  destruct (String.leb (key (F x)) (key (F y))); cbn [map];
    [reflexivity|now rewrite IH].
Qed.

Lemma sorted_on_map {A B} (key : B -> string) (F : A -> B) (l : list A) :
  sorted_on key (map F l) = map F (sorted_on (fun a => key (F a)) l).
Proof.
  induction l as [|x l IH]; [reflexivity|].
  cbn [map]. unfold sorted_on in *. cbn [fold_right].
  rewrite IH. apply insert_on_map.
Qed.

Lemma insert_on_Sorted {A} (key : A -> string) (x : A) (l : list A) :
  Sorted (fun a b => String.leb (key a) (key b) = true) l ->
  Sorted (fun a b => String.leb (key a) (key b) = true) (insert_on key x l).
Proof.
  induction 1 as [|y l Hs IH Hy]; cbn [insert_on].
  - repeat constructor.
  - destruct (String.leb (key x) (key y)) eqn:E.
    + constructor; [now constructor|]. now constructor.
    + constructor; [exact IH|].
      assert (Hyx : String.leb (key y) (key x) = true).
      { destruct (String.leb_total (key x) (key y)) as [H|H];
          [congruence|exact H]. }
      destruct l as [|z l]; cbn [insert_on].
      * now constructor.
      * destruct (String.leb (key x) (key z)); constructor;
          [exact Hyx|now inversion Hy].
Qed.

Lemma sorted_on_Sorted {A} (key : A -> string) (l : list A) :
  Sorted (fun a b => String.leb (key a) (key b) = true) (sorted_on key l).
Proof.
  induction l as [|x l IH]; [constructor|].
  unfold sorted_on in *. cbn [fold_right]. now apply insert_on_Sorted.
Qed.

(** Among the elements of one key, [insert_on] puts the new one first. *)
Lemma insert_on_filter {A} (key : A -> string) (k : string) (x : A)
      (l : list A) :
  filter (fun a => String.eqb (key a) k) (insert_on key x l)
  = filter (fun a => String.eqb (key a) k) (x :: l).
Proof.
  induction l as [|y l IH]; [reflexivity|].
  cbn [insert_on]. destruct (String.leb (key x) (key y)) eqn:E;
    [reflexivity|].
  cbn [filter] in *. rewrite IH.
  destruct (String.eqb_spec (key x) k) as [Ex|_],
           (String.eqb_spec (key y) k) as [Ey|_]; try reflexivity.
  rewrite Ex, Ey in E.
  destruct (String.leb_total k k) as [H|H]; congruence.
Qed.

Lemma sorted_on_filter {A} (key : A -> string) (k : string) (l : list A) :
  filter (fun a => String.eqb (key a) k) (sorted_on key l)
  = filter (fun a => String.eqb (key a) k) l.
Proof.
  induction l as [|x l IH]; [reflexivity|].
  unfold sorted_on in *. cbn [fold_right].
  rewrite insert_on_filter. cbn [filter]. now rewrite IH.
Qed.

Section Order.

Variable lower : string -> string.

(** A call of [make_tree] yields its root first, and everything after it is
    deeper than the root. *)
Lemma yield_child_depths (n : node) :
  forall (root hl : Path) (par : option DisplayablePath.t) (b : bool),
    exists rest : list DisplayablePath.t,
      DisplayablePath.yield_child lower n root hl par b
      = DisplayablePath.__init__ root hl par b :: rest
      /\ Forall (fun dp => (root_depth par < DisplayablePath.depth dp)%nat)
                rest.
Proof.
  induction n as [i|es IHes] using node_induction; intros root hl par b.
  - exists []. split; [reflexivity|constructor].
  - cbn [DisplayablePath.yield_child]. eexists. split; [reflexivity|].
    set (dr := DisplayablePath.__init__ root hl par b).
    apply visit_Forall. apply Forall_forall. intros pk Hpk b'.
    apply (Permutation_in _ (Permutation_sym (sorted_on_perm _ _))) in Hpk.
    apply in_map_iff in Hpk as (xc & <- & Hxc). cbn [snd].
    rewrite Forall_forall in IHes.
    destruct (IHes xc Hxc (root ++ [fst xc]) hl (Some dr) b')
      as (rest & -> & Hrest).
    assert (Hdr : DisplayablePath.depth dr = root_depth par)
      by (subst dr; now destruct par).
    constructor.
    + change (root_depth par < S (DisplayablePath.depth dr))%nat. lia.
    + eapply Forall_impl; [|exact Hrest].
      intros dp. cbn [root_depth]. lia.
Qed.

Lemma visit_children
      (F : bool -> string * node -> DisplayablePath.t)
      (G : string * node -> bool -> list DisplayablePath.t)
      (keep : DisplayablePath.t -> bool)
      (cs : list (string * node)) (P : string * node -> Path) :
  (forall xc b, exists rest,
        G xc b = F b xc :: rest
        /\ keep (F b xc) = true
        /\ Forall (fun dp => keep dp = false) rest) ->
  forall count len : nat,
    filter keep (DisplayablePath.visit (map (fun xc => (P xc, G xc)) cs)
                                       count len)
    = map (fun kx => F (Nat.eqb (fst kx) len) (snd kx)) (numbered cs count).
Proof.
  intros HG. induction cs as [|xc cs IH]; intros count len; [reflexivity|].
  cbn [map DisplayablePath.visit numbered fst snd].
  destruct (HG xc (Nat.eqb count len)) as (rest & -> & Hkeep & Hrest).
  rewrite filter_app. cbn [filter]. rewrite Hkeep.
  rewrite <- app_comm_cons. f_equal.
  replace (filter keep rest) with (@nil DisplayablePath.t).
  - apply IH.
  - symmetry. clear - Hrest.
    induction Hrest as [|dp rest Hdp _ IH]; [reflexivity|].
    cbn [filter]. now rewrite Hdp.
Qed.

(** X12.  The lines directly below the root of the tree of a directory are,
    in this order, one for each entry of the directory taken in
    non-decreasing order of its lowercased path, the entries of one
    lowercased path in the order of the listing; the entry that comes last
    in that order, and no other, is flagged as the last. *)
Theorem tree_children_are_sorted_and_last_is_flagged
        (es : entries) (d hl : Path) :
  let root := DisplayablePath.__init__ d hl None false in
  let key := fun xc : string * node => lower (str (d ++ [fst xc])) in
  let children := sorted_on key es in
  filter (fun dp => Nat.eqb (DisplayablePath.depth dp) 1)
         (DisplayablePath.make_tree lower es d hl None false)
  = map (fun kx : nat * (string * node) =>
           DisplayablePath.__init__
             (d ++ [fst (snd kx)]) hl (Some root)
             (Nat.eqb (fst kx) (List.length es)))
        (numbered children 1)
  /\ Permutation es children
  /\ Sorted (fun a b => String.leb (key a) (key b) = true) children
  /\ (forall k : string,
        filter (fun xc => String.eqb (key xc) k) children
        = filter (fun xc => String.eqb (key xc) k) es).
Proof.
  intros root key children.
  split; [|split; [apply sorted_on_perm
                  |split; [apply sorted_on_Sorted
                          |intros k; apply sorted_on_filter]]].
  unfold DisplayablePath.make_tree. cbn [DisplayablePath.yield_child].
  fold root. cbn [filter DisplayablePath.depth root DisplayablePath.__init__
                  Nat.eqb].
  rewrite (sorted_on_map
             (fun child : Path * (bool -> list DisplayablePath.t) =>
                lower (str (fst child)))
             (fun xc : string * node =>
                (d ++ [fst xc],
                 DisplayablePath.yield_child lower (snd xc) (d ++ [fst xc])
                                             hl (Some root)))).
  cbn [fst]. fold key. fold children.
  rewrite length_map.
  replace (List.length children) with (List.length es)
    by (apply Permutation_length, sorted_on_perm).
  apply (visit_children
           (fun b xc => DisplayablePath.__init__ (d ++ [fst xc]) hl
                                                 (Some root) b)).
  intros xc b.
  destruct (yield_child_depths (snd xc) (d ++ [fst xc]) hl (Some root) b)
    as (rest & Hrest & Hdeep).
  exists rest. split; [exact Hrest|]. split; [reflexivity|].
  eapply Forall_impl; [|exact Hdeep].
  intros dp. cbn [root_depth root DisplayablePath.depth
                  DisplayablePath.__init__].
  intros H. apply Nat.eqb_neq. lia.
Qed.

End Order.

(* ================================================================= *)
(** * The cursor and the catalog *)

Lemma index_In (x : File) (l : list File) :
  In x l -> StateMachine.index x l <> None.
Proof.
  induction l as [|y l IH]; intros Hin; [destruct Hin|].
  cbn [StateMachine.index]. destruct (Nat.eqb (oid y) (oid x)) eqn:E.
  - discriminate.
  - destruct Hin as [->|Hin].
    + now rewrite Nat.eqb_refl in E.
    + destruct (StateMachine.index x l); [discriminate|].
      now destruct (IH Hin).
Qed.

(** With its cursor in its catalog, [advance] takes neither of its failing
    branches: it returns, or goes on with the next record. *)
Lemma advance_in_catalog (fuel : nat) (self : StateMachine) (p : process) :
  in_catalog self ->
  exists i : nat,
    StateMachine.index (current_file self) (files self) = Some i
    /\ StateMachine.advance (S fuel) self p
       = match nth_error (files self) (S i) with
         | Some f => StateMachine.transition fuel (mkStateMachine (files self) f) p
         | None => Ok self p
         end
    /\ (forall f, nth_error (files self) (S i) = Some f ->
                  in_catalog (mkStateMachine (files self) f)).
Proof.
  intros Hself. unfold in_catalog in Hself.
  destruct (StateMachine.index (current_file self) (files self))
    as [i|] eqn:Ei; [|now destruct Hself].
  exists i. split; [reflexivity|]. split.
  - cbn [StateMachine.advance]. rewrite Ei. cbv zeta.
    destruct (List.length (files self) <=? S i)%nat eqn:El.
    + apply Nat.leb_le in El. apply nth_error_None in El. now rewrite El.
    + apply Nat.leb_gt in El.
      destruct (nth_error (files self) (S i)) as [f|] eqn:Ef; [reflexivity|].
      apply nth_error_None in Ef. lia.
  - intros f Hf. unfold in_catalog. cbn [current_file files].
    apply index_In. eapply nth_error_In. exact Hf.
Qed.

(** Started with its cursor in its catalog, each of the seven methods that
    returns returns a session with its cursor in its catalog. *)
Lemma methods_stay_in_catalog (fuel : nat) :
  let good (m : StateMachine -> M StateMachine) :=
      forall self, in_catalog self -> returns in_catalog (m self)
  in
  good (StateMachine.transition fuel)
  /\ good (StateMachine.delete_file fuel)
  /\ good (StateMachine.delete_file_directory fuel)
  /\ good (StateMachine.skip fuel)
  /\ good (StateMachine.skip_directory fuel)
  /\ good (StateMachine.advance fuel)
  /\ good (StateMachine.print_help fuel).
Proof.
  cbv zeta.
  induction fuel as [|fuel (Ht & Hd & HD & Hs & HS & Ha & Hh)].
  - repeat split; intros self _; apply returns_raise.
  - repeat split; intros self Hself.
    + cbn [StateMachine.transition].
      apply returns_bind; intros e.
      apply (returns_bind_with in_catalog).
      { destruct (negb e); [now apply Ha|now apply returns_ret]. }
      intros self1 H1. apply returns_bind; intros ign.
      apply (returns_bind_with in_catalog).
      { destruct (StateMachine.contains _ _);
          [now apply Ha|now apply returns_ret]. }
      intros self2 H2. apply returns_bind; intros choice.
      destruct (StateMachine.get _ _) as [[| | | |]|]; auto.
    + cbn [StateMachine.delete_file]. apply returns_bind; intros.
      now apply Ha.
    + cbn [StateMachine.delete_file_directory]. apply returns_bind; intros.
      now apply Ha.
    + cbn [StateMachine.skip]. now apply Ha.
    + cbn [StateMachine.skip_directory]. apply returns_bind; intros.
      now apply Ha.
    + intros p self' p'.
      destruct (advance_in_catalog fuel self p Hself) as (i & _ & -> & Hnext).
      destruct (nth_error (files self) (S i)) as [f|].
      * apply Ht. now apply Hnext.
      * now intros [= <- _].
    + cbn [StateMachine.print_help]. apply returns_bind; intros.
      now apply Ht.
Qed.

(** X13.  A session whose cursor is a record of its catalog, as
    [StateMachine(files)] starts it, keeps its cursor in the catalog.  So
    [advance] always finds the cursor with [self.files.index], and the
    record at [next_file_index] whenever that is below [len(self.files)]:
    it raises nothing of its own, and either returns, at the last record, or
    is [transition] on the same catalog with the cursor on the next record,
    again a record of the catalog.  Whenever [transition] or [advance]
    returns, the cursor of the session is a record of its catalog. *)
Theorem cursor_stays_in_catalog
        (fuel : nat) (self : StateMachine) (p : process) :
  in_catalog self ->
  (exists i : nat,
      StateMachine.index (current_file self) (files self) = Some i
      /\ StateMachine.advance (S fuel) self p
         = match nth_error (files self) (S i) with
           | Some f =>
               StateMachine.transition fuel (mkStateMachine (files self) f) p
           | None => Ok self p
           end
      /\ (forall f, nth_error (files self) (S i) = Some f ->
                    in_catalog (mkStateMachine (files self) f)))
  /\ (forall self' p',
        StateMachine.transition fuel self p = Ok self' p'
        \/ StateMachine.advance fuel self p = Ok self' p' ->
        in_catalog self')
  /\ (forall (l : list File) (s : StateMachine) (q q' : process),
        StateMachine.__init__ l q = Ok s q' -> in_catalog s).
Proof.
  intros Hself. split; [now apply advance_in_catalog|]. split.
  - intros self' p' [H|H].
    + exact (proj1 (methods_stay_in_catalog fuel) self Hself _ _ _ H).
    + exact (proj1 (proj2 (proj2 (proj2 (proj2 (proj2
               (methods_stay_in_catalog fuel)))))) self Hself _ _ _ H).
  - intros l s q q'. unfold StateMachine.__init__, in_catalog.
    destruct l as [|f l]; [discriminate|].
    intros [= <- _]. cbn [current_file files StateMachine.index].
    rewrite Nat.eqb_refl. discriminate.
Qed.

(** X13 on a run: from [/x/a], the first of two records, [advance] goes on
    to [/x/b]. *)
Lemma cursor_stays_in_catalog_witness :
  exists i : nat,
    StateMachine.index Scenario.A [Scenario.A; Scenario.B] = Some i
    /\ StateMachine.advance
         6 (mkStateMachine [Scenario.A; Scenario.B] Scenario.A)
         (Scenario.boot Scenario.disk_x ["s"%string])
       = match nth_error [Scenario.A; Scenario.B] (S i) with
         | Some f =>
             StateMachine.transition
               5 (mkStateMachine [Scenario.A; Scenario.B] f)
               (Scenario.boot Scenario.disk_x ["s"%string])
         | None =>
             Ok (mkStateMachine [Scenario.A; Scenario.B] Scenario.A)
                (Scenario.boot Scenario.disk_x ["s"%string])
         end.
Proof.
  destruct (proj1 (cursor_stays_in_catalog
                     5 (mkStateMachine [Scenario.A; Scenario.B] Scenario.A)
                     (Scenario.boot Scenario.disk_x ["s"%string])
                     ltac:(unfold in_catalog; vm_compute; discriminate)))
    as (i & Hi & Hadv & _).
  exists i. split; [exact Hi|exact Hadv].
Defined.
